(** * ATHYG deserialiser: a shallow embedding of [ATHYG.hpp]

    The development follows the header top-down: the library types the
    code relies on ([std::string_view], [std::stringstream], the C
    conversions [strtol], [strtoul], [strtod]), then the private helpers
    [ReadAllText], [Split], [ToArray] and [TryParse], the three record
    shapes [V1], [V2], [V3], and finally [Load].

    Data model.  A character buffer is a [list ascii].  The terminating
    NUL of a [std::string] buffer is the end of the list; an embedded NUL
    is an ordinary character that no conversion accepts.  Integers are
    [Z] with the wrap-around of each C type written out for the LP64 data
    model ([short] 16 bits, [int] 32, [long] and [long long] 64, so that
    [size_t] is [unsigned long]).  Floating values are the binary
    floating-point numbers of the Standard Library's [SpecFloat]:
    [float] is binary32, [double] binary64 and [long double] the 80-bit
    extended format of x86-64. *)

From Equations Require Import Equations.
From Stdlib Require Import Ascii String.
From Stdlib Require Import List ZArith NArith QArith Bool Arith Lia.
From Stdlib Require Import Floats.SpecFloat.
Import ListNotations.

Local Open Scope nat_scope.

(** ** Character buffers *)

Abbreviation chars := (list ascii).

(** A string literal of the source, as a buffer. *)
Notation "'L' s" := (list_ascii_of_string s%string) (at level 9, only parsing).

Definition comma : ascii := ","%char.
Definition newline : ascii := "010"%char.

(** ** [std::string_view]

    A view is a pointer into a buffer and a length.  [sv_data] is what
    [data()] points at: the characters from the view's start to the end
    of the underlying buffer, so the characters that follow the view in
    memory stay visible (the C conversions read them).  Only views onto a
    live buffer are modelled: [data()] is never null. *)

Record string_view : Type := mk_sv {
  sv_data : chars;
  sv_size : nat
}.

(** The characters the view denotes. *)
Definition sv_str (v : string_view) : chars := firstn (sv_size v) (sv_data v).

(** What follows the view in its buffer. *)
Definition sv_tail (v : string_view) : chars := skipn (sv_size v) (sv_data v).

(** The implicit conversion [std::string -> std::string_view]. *)
Definition sv_of_string (s : chars) : string_view := mk_sv s (length s).

(** A token [tok] lying in a buffer in front of [tail]. *)
Definition sv_token (tok tail : chars) : string_view :=
  mk_sv (tok ++ tail) (length tok).

Definition sv_empty (v : string_view) : bool := sv_size v =? 0.

(** [operator==] against a literal: same length, same characters. *)
Definition sv_eqb (v : string_view) (s : chars) : bool :=
  if list_eq_dec ascii_dec (sv_str v) s then true else false.

(** [find(c, pos)]: the first index [>= pos] holding [c]; [None] is
    [npos]. *)
Fixpoint index_of (c : ascii) (l : chars) : option nat :=
  match l with
  | [] => None
  | x :: t => if Ascii.eqb x c then Some 0 else option_map S (index_of c t)
  end.

Definition sv_find (v : string_view) (c : ascii) (pos : nat) : option nat :=
  option_map (Nat.add pos) (index_of c (skipn pos (sv_str v))).

(** [substr(pos, n)] and [substr(pos)], for [pos <= size()] (beyond that
    the library throws [std::out_of_range]; [Split] never asks for it,
    see [Split_loop_in_range]). *)
Definition sv_substr (v : string_view) (pos n : nat) : string_view :=
  mk_sv (skipn pos (sv_data v)) (Nat.min n (sv_size v - pos)).

Definition sv_substr_from (v : string_view) (pos : nat) : string_view :=
  mk_sv (skipn pos (sv_data v)) (sv_size v - pos).

(** ** [Split] (lines 81-104) *)

Lemma index_of_lt c l i : index_of c l = Some i -> i < length l.
Proof.
  revert i; induction l as [|x t IH]; simpl; intros i H; [discriminate|].
  destruct (Ascii.eqb x c).
  - injection H as <-. lia.
  - destruct (index_of c t) as [j|]; simpl in H; [|discriminate].
    injection H as <-. specialize (IH j eq_refl). lia.
Qed.

Lemma sv_find_bounds v c pos e :
  sv_find v c pos = Some e -> pos <= e /\ e < length (sv_str v).
Proof.
  unfold sv_find. destruct (index_of c (skipn pos (sv_str v))) as [i|] eqn:E;
    simpl; [|discriminate].
  intros [= <-]. apply index_of_lt in E. rewrite length_skipn in E. lia.
Qed.

(** Matching on a value while keeping the equation that names it. *)
Definition inspect {A : Type} (x : A) : {y : A | x = y} := exist _ x eq_refl.

(** The [while] loop of [Split]; [start] is the loop variable and
    [result] the vector under construction.  It terminates because
    [start] strictly grows and [find] fails beyond the view's end. *)
Equations? Split_loop (_string : string_view) (_divider : ascii)
    (start : nat) (result : list string_view) : list string_view
    by wf (length (sv_str _string) - start) lt :=
  Split_loop _string _divider start result
    with inspect (sv_find _string _divider start) := {
    | exist _ (Some end_) E =>
        Split_loop _string _divider (end_ + 1)
          (result ++ [sv_substr _string start (end_ - start)]);
    | exist _ None _ =>
        (* Last word is not delimited. *)
        result ++ [sv_substr_from _string start] }.
Proof. apply sv_find_bounds in E. lia. Qed.

(** [_capacity] only reserves storage. *)
Definition Split (_string : string_view) (_divider : ascii)
    (_capacity : nat) : list string_view :=
  Split_loop _string _divider 0 [].

(** *** The tokenizer as the specification words it

    One field per delimiter-separated stretch of the line: a line without
    delimiter is a single field, and every delimiter closes the field in
    front of it and opens a new one. *)
Fixpoint fields (d : ascii) (l : chars) : list chars :=
  match l with
  | [] => [[]]
  | c :: t =>
      if Ascii.eqb c d then [] :: fields d t
      else match fields d t with
           | f :: fs => (c :: f) :: fs
           | [] => [[c]]
           end
  end.

(** Joining fields with the delimiter, the inverse of [fields]. *)
Fixpoint join (d : ascii) (fs : list chars) : chars :=
  match fs with
  | [] => []
  | [f] => f
  | f :: fs' => f ++ d :: join d fs'
  end.

(** *** Where the tokens lie in the buffer

    A token of [Split] is followed in memory either by the delimiter that
    closed it or by whatever follows the whole line. *)
Definition starts_with (d : ascii) (l : chars) : Prop :=
  exists r, l = d :: r.

Definition token_of (v : string_view) (d : ascii) (t : string_view) : Prop :=
  starts_with d (sv_tail t) \/ sv_tail t = sv_tail v.

(** ** The C conversions ([<cstdlib>], "C" locale)

    Each conversion is given the characters at [nptr] and returns its
    value together with [endptr - nptr], the number of characters of the
    subject sequence including the white space skipped in front of it;
    [0] is the library's "no conversion could be performed", where it
    stores [nptr] itself in [endptr]. *)

Definition isspace (c : ascii) : bool :=
  let n := nat_of_ascii c in (n =? 32) || ((9 <=? n) && (n <=? 13)).

Definition isdigit (c : ascii) : bool :=
  let n := nat_of_ascii c in (48 <=? n) && (n <=? 57).

Definition isxdigit (c : ascii) : bool :=
  let n := nat_of_ascii c in
  isdigit c || ((65 <=? n) && (n <=? 70)) || ((97 <=? n) && (n <=? 102)).

Definition isalpha (c : ascii) : bool :=
  let n := nat_of_ascii c in
  ((65 <=? n) && (n <=? 90)) || ((97 <=? n) && (n <=? 122)).

Definition tolower (c : ascii) : ascii :=
  let n := nat_of_ascii c in
  if (65 <=? n) && (n <=? 90) then ascii_of_nat (n + 32) else c.

(** The value of a digit in bases up to 16. *)
Definition digit_val (c : ascii) : N :=
  let n := N_of_ascii c in
  if isdigit c then n - 48
  else if (97 <=? n)%N then n - 87 else n - 55.

Definition digits_val (base : N) (ds : chars) : N :=
  fold_left (fun a c => base * a + digit_val c)%N ds 0%N.

(** The longest prefix whose characters satisfy [p], and the rest. *)
Fixpoint span (p : ascii -> bool) (l : chars) : chars * chars :=
  match l with
  | [] => ([], [])
  | c :: t => if p c then let (a, b) := span p t in (c :: a, b) else ([], l)
  end.

(** An optional sign: whether it is a minus, what follows it, and how
    many characters it took. *)
Definition take_sign (s : chars) : bool * chars * nat :=
  match s with
  | c :: t =>
      if Ascii.eqb c "-" then (true, t, 1)
      else if Ascii.eqb c "+" then (false, t, 1)
      else (false, s, 0)
  | [] => (false, s, 0)
  end.

(** The subject sequence of the [strtol] family in base 10: white space,
    an optional sign, a nonempty run of digits.  Returns the sign, the
    magnitude and the number of characters consumed. *)
Definition scan_int (nptr : chars) : bool * N * nat :=
  let (ws, s1) := span isspace nptr in
  let '(neg, s2, k) := take_sign s1 in
  let (ds, _) := span isdigit s2 in
  match ds with
  | [] => (false, 0%N, 0)
  | _ :: _ => (neg, digits_val 10 ds, length ws + k + length ds)
  end.

Definition ULONG_MAX : Z := 2 ^ 64 - 1.
Definition LONG_MAX : Z := 2 ^ 63 - 1.
Definition LONG_MIN : Z := - 2 ^ 63.

(** [strtoul]: a magnitude beyond [ULONG_MAX] saturates; otherwise a
    minus sign negates in the return type. *)
Definition strtoul (nptr : chars) : Z * nat :=
  let '(neg, m, e) := scan_int nptr in
  let m := Z.of_N m in
  ((if ULONG_MAX <? m then ULONG_MAX
    else if neg then (- m) mod 2 ^ 64 else m)%Z, e).

(** [strtol]: values outside [long] saturate at the nearer bound. *)
Definition strtol (nptr : chars) : Z * nat :=
  let '(neg, m, e) := scan_int nptr in
  let v := (if neg then - Z.of_N m else Z.of_N m)%Z in
  ((if LONG_MAX <? v then LONG_MAX
    else if v <? LONG_MIN then LONG_MIN else v)%Z, e).

(** [long long] and [long] coincide under LP64. *)
Definition strtoll := strtol.
Definition strtoull := strtoul.

(** [static_cast] to a [w]-bit unsigned and signed integer type. *)
Definition to_unsigned (w : Z) (z : Z) : Z := (z mod 2 ^ w)%Z.
Definition to_signed (w : Z) (z : Z) : Z :=
  ((z + 2 ^ (w - 1)) mod 2 ^ w - 2 ^ (w - 1))%Z.


(** *** [strtof], [strtod], [strtold]

    A floating conversion works in two steps.  It recognises the
    subject sequence and reads it as a literal, which is exact: a sign,
    the digits as one integer, and a power of ten or of two.  It then
    rounds the literal to the binary format of its return type, to
    nearest with ties to even, as the C library does in the default
    rounding mode; a literal too large becomes an infinity, one too
    small a zero. *)
Inductive fp_literal : Type :=
| Lit_dec (neg : bool) (m : N) (e : Z)   (* (-1)^neg * m * 10^e *)
| Lit_hex (neg : bool) (m : N) (e : Z)   (* (-1)^neg * m * 2^e *)
| Lit_inf (neg : bool)
| Lit_nan (neg : bool).

Definition signed_Q (neg : bool) (m : N) : Q :=
  inject_Z (if neg then - Z.of_N m else Z.of_N m).

(** The rational a finite literal denotes. *)
Definition literal_Q (l : fp_literal) : option Q :=
  match l with
  | Lit_dec neg m e => Some (signed_Q neg m * Qpower (10 # 1) e)%Q
  | Lit_hex neg m e => Some (signed_Q neg m * Qpower (2 # 1) e)%Q
  | Lit_inf _ | Lit_nan _ => None
  end.

(** Does [s] start with the lower-case word [w], ignoring case? *)
Fixpoint prefix_ci (w s : chars) : bool :=
  match w, s with
  | [], _ => true
  | x :: w', c :: s' => Ascii.eqb (tolower c) x && prefix_ci w' s'
  | _ :: _, [] => false
  end.

(** Digits "optionally containing a radix character": the digits before
    and after the point and the characters taken.  The sequence is valid
    when it holds at least one digit. *)
Definition scan_mantissa (isd : ascii -> bool) (s : chars)
    : chars * chars * nat :=
  let (ip, s1) := span isd s in
  match s1 with
  | c :: t =>
      if Ascii.eqb c "." then
        let (fp, _) := span isd t in (ip, fp, length ip + 1 + length fp)
      else (ip, [], length ip)
  | [] => (ip, [], length ip)
  end.

(** An optional exponent part introduced by [marker] (lower case): its
    value and length, [(0, 0)] when there is none. *)
Definition scan_exponent (marker : ascii) (s : chars) : Z * nat :=
  match s with
  | c :: t =>
      if Ascii.eqb (tolower c) marker then
        let '(neg, t', k) := take_sign t in
        let (ds, _) := span isdigit t' in
        match ds with
        | [] => (0%Z, 0)
        | _ :: _ =>
            let v := Z.of_N (digits_val 10 ds) in
            ((if neg then - v else v)%Z, 1 + k + length ds)
        end
      else (0%Z, 0)
  | [] => (0%Z, 0)
  end.

Definition scan_hex (neg : bool) (s : chars) : option (fp_literal * nat) :=
  if prefix_ci (L "0x") s then
    let '(ip, fp, n) := scan_mantissa isxdigit (skipn 2 s) in
    match ip ++ fp with
    | [] => None
    | _ :: _ =>
        let (ex, k) := scan_exponent "p" (skipn (2 + n) s) in
        Some (Lit_hex neg (digits_val 16 (ip ++ fp))
                (ex - 4 * Z.of_nat (length fp)), 2 + n + k)
    end
  else None.

Definition scan_dec (neg : bool) (s : chars) : option (fp_literal * nat) :=
  let '(ip, fp, n) := scan_mantissa isdigit s in
  match ip ++ fp with
  | [] => None
  | _ :: _ =>
      let (ex, k) := scan_exponent "e" (skipn n s) in
      Some (Lit_dec neg (digits_val 10 (ip ++ fp))
              (ex - Z.of_nat (length fp)), n + k)
  end.

Definition isnchar (c : ascii) : bool :=
  isdigit c || isalpha c || Ascii.eqb c "_".

Definition scan_special (neg : bool) (s : chars) : option (fp_literal * nat) :=
  if prefix_ci (L "infinity") s then Some (Lit_inf neg, 8)
  else if prefix_ci (L "inf") s then Some (Lit_inf neg, 3)
  else if prefix_ci (L "nan") s then
    match skipn 3 s with
    | c :: t =>
        if Ascii.eqb c "(" then
          let (ns, r) := span isnchar t in
          match r with
          | c' :: _ =>
              if Ascii.eqb c' ")" then Some (Lit_nan neg, 3 + 1 + length ns + 1)
              else Some (Lit_nan neg, 3)
          | [] => Some (Lit_nan neg, 3)
          end
        else Some (Lit_nan neg, 3)
    | [] => Some (Lit_nan neg, 3)
    end
  else None.

(** The subject sequence of [strtof], [strtod] and [strtold]: white
    space, an optional sign, then the longest of a hexadecimal constant,
    a decimal constant, [inf]/[infinity] or [nan]/[nan(...)].  Without a
    subject sequence the conversions return zero and consume nothing. *)
Definition scan_fp (nptr : chars) : fp_literal * nat :=
  let (ws, s1) := span isspace nptr in
  let '(neg, s2, k) := take_sign s1 in
  let found :=
    match scan_hex neg s2 with
    | Some r => Some r
    | None =>
        match scan_dec neg s2 with
        | Some r => Some r
        | None => scan_special neg s2
        end
    end in
  match found with
  | Some (v, n) => (v, length ws + k + n)
  | None => (Lit_dec false 0 0, 0)
  end.

(** A binary floating-point value: a signed zero, a signed infinity, a
    NaN, or [(-1)^s * m * 2^e]. *)
Definition fp_value : Type := spec_float.


(** A binary format: the bits of the significand and the exponent of
    the infinities. *)
Record fp_format : Type := { fmt_prec : Z; fmt_emax : Z }.

Definition binary32 : fp_format := {| fmt_prec := 24; fmt_emax := 128 |}.
Definition binary64 : fp_format := {| fmt_prec := 53; fmt_emax := 1024 |}.
Definition x87_extended : fp_format :=
  {| fmt_prec := 64; fmt_emax := 16384 |}.

Section Rounding.

Variable fmt : fp_format.
Let prec := fmt_prec fmt.
Let emax := fmt_emax fmt.

(** The bits of a positive integer. *)
Definition bits (m : positive) : Z := Zpos (digits2_pos m).

(** The quotient [n / d], rounded. *)
Definition round_ratio (sx : bool) (n d : positive) : fp_value :=
  let '(q, e, l) := SFdiv_core_binary prec emax (Zpos n) 0 (Zpos d) 0 in
  binary_round_aux prec emax sx q e l.

(** [m * 10^e], rounded.  A power of ten is at least the same power of
    eight, which settles the literals far outside the format without
    computing them: at or above [2^(emax + 1)] the value is an
    infinity, below half the least positive value it is a zero. *)
Definition round_dec (sx : bool) (m : N) (e : Z) : fp_value :=
  match m with
  | N0 => S754_zero sx
  | Npos p =>
      (if 0 <=? e then
         if emax + 2 <=? 3 * e + bits p then S754_infinity sx
         else binary_round prec emax sx (p * Z.to_pos (10 ^ e)) 0
       else
         if bits p + 3 * e <=? emin prec emax - 1 then S754_zero sx
         else round_ratio sx p (Z.to_pos (10 ^ (- e))))%Z
  end.

(** [m * 2^e], rounded. *)
Definition round_hex (sx : bool) (m : N) (e : Z) : fp_value :=
  match m with
  | N0 => S754_zero sx
  | Npos p =>
      (if emax + 1 <=? e + bits p then S754_infinity sx
       else if e + bits p <=? emin prec emax - 1 then S754_zero sx
       else binary_round prec emax sx p e)%Z
  end.

Definition round_literal (l : fp_literal) : fp_value :=
  match l with
  | Lit_dec neg m e => round_dec neg m e
  | Lit_hex neg m e => round_hex neg m e
  | Lit_inf neg => S754_infinity neg
  | Lit_nan _ => S754_nan
  end.

End Rounding.

Definition strtof (nptr : chars) : fp_value * nat :=
  let (l, e) := scan_fp nptr in (round_literal binary32 l, e).

Definition strtod (nptr : chars) : fp_value * nat :=
  let (l, e) := scan_fp nptr in (round_literal binary64 l, e).

Definition strtold (nptr : chars) : fp_value * nat :=
  let (l, e) := scan_fp nptr in (round_literal x87_extended l, e).

(** ** [TryParse] (lines 152-218)

    [e] is the end pointer: [None] while it is still [nullptr],
    [Some k] for [_str.data() + k].  The final test [e == _str.data()]
    is [e = Some 0].  None of the conversions throws, so the [catch]
    block has no counterpart. *)
Definition TryParse_return {T : Type} (r : T) (e : option nat) : option T :=
  match e with
  | Some 0 => None
  | _ => Some r
  end.

Inductive int_kind : Type :=
| T_int | T_short | T_long | T_long_long
| T_unsigned_int | T_unsigned_short | T_unsigned_long | T_unsigned_long_long.

Inductive fp_kind : Type := T_float | T_double | T_long_double.

(** The format of each decimal kind. *)
Definition format_of (T : fp_kind) : fp_format :=
  match T with
  | T_float => binary32
  | T_double => binary64
  | T_long_double => x87_extended
  end.

(** Is the kind unsigned, and how many bits wide. *)
Definition is_unsigned (T : int_kind) : bool :=
  match T with
  | T_unsigned_int | T_unsigned_short | T_unsigned_long
  | T_unsigned_long_long => true
  | _ => false
  end.

Definition width (T : int_kind) : Z :=
  match T with
  | T_short | T_unsigned_short => 16
  | T_int | T_unsigned_int => 32
  | _ => 64
  end%Z.

(** The conversion each integer kind selects, with its [static_cast]. *)
Definition convert_int (T : int_kind) (nptr : chars) : Z * nat :=
  match T with
  | T_int => let (v, e) := strtol nptr in (to_signed 32 v, e)
  | T_short => let (v, e) := strtol nptr in (to_signed 16 v, e)
  | T_long => strtol nptr
  | T_long_long => strtoll nptr
  | T_unsigned_int => let (v, e) := strtoul nptr in (to_unsigned 32 v, e)
  | T_unsigned_short => let (v, e) := strtoul nptr in (to_unsigned 16 v, e)
  | T_unsigned_long => strtoul nptr
  | T_unsigned_long_long => strtoull nptr
  end.

Definition convert_fp (T : fp_kind) (nptr : chars) : fp_value * nat :=
  match T with
  | T_float => strtof nptr
  | T_double => strtod nptr
  | T_long_double => strtold nptr
  end.

Definition TryParse_int (T : int_kind) (_str : string_view) : option Z :=
  let (r, e) := convert_int T (sv_data _str) in
  TryParse_return r (Some e).

Definition TryParse_fp (T : fp_kind) (_str : string_view) : option fp_value :=
  let (r, e) := convert_fp T (sv_data _str) in
  TryParse_return r (Some e).

(** The character kinds: the first character of a nonempty view. *)
Definition TryParse_char (_str : string_view) : option ascii :=
  if negb (sv_empty _str)
  then TryParse_return (hd zero (sv_data _str)) None
  else TryParse_return zero (Some 0).

(** [bool]: [e] is never assigned. *)
Definition TryParse_bool (_str : string_view) : option bool :=
  let r := sv_eqb _str (L "true") || sv_eqb _str (L "True")
           || sv_eqb _str (L "TRUE") || sv_eqb _str (L "T")
           || sv_eqb _str (L "1") in
  TryParse_return r None.

(** The two specialisations for text. *)
Definition TryParse_string (_str : string_view) : option chars :=
  Some (sv_str _str).

Definition TryParse_string_view (_str : string_view) : option string_view :=
  Some _str.

(** [size_t] is [unsigned long]. *)
Definition TryParse_size_t := TryParse_int T_unsigned_long.
Definition TryParse_double := TryParse_fp T_double.

(** ** The three record shapes (lines 228-445)

    Every field is a [std::optional]; a text field is initialised from
    the token itself, a numeric field through [TryParse]. *)

(** [struct V1] (lines 228-281). *)
Module V1.

Record t : Type := mk {
  id       : option Z;
  tyc      : option chars;
  gaia     : option Z;
  hyg      : option Z;
  hip      : option Z;
  hd       : option Z;
  hr       : option Z;
  gl       : option chars;
  bayer    : option chars;
  flam     : option chars;
  con      : option chars;
  proper   : option chars;
  ra       : option fp_value;
  dec      : option fp_value;
  pos_src  : option chars;
  dist     : option fp_value;
  x0       : option fp_value;
  y0       : option fp_value;
  z0       : option fp_value;
  dist_src : option chars;
  mag      : option fp_value;
  absmag   : option fp_value;
  mag_src  : option chars
}.

Definition s_ElementCount : nat := 23.

(** The constructor: column [i] is read from [_values[i]].  The array
    holds [s_ElementCount] tokens ([ToArray] checks it), so the default
    of [nth] is never read. *)
Definition make (_values : list string_view) : t :=
  let at_ (i : nat) := nth i _values (mk_sv [] 0) in
  {|
    id       := TryParse_size_t (at_ 0);
    tyc      := Some (sv_str (at_ 1));
    gaia     := TryParse_size_t (at_ 2);
    hyg      := TryParse_size_t (at_ 3);
    hip      := TryParse_size_t (at_ 4);
    hd       := TryParse_size_t (at_ 5);
    hr       := TryParse_size_t (at_ 6);
    gl       := Some (sv_str (at_ 7));
    bayer    := Some (sv_str (at_ 8));
    flam     := Some (sv_str (at_ 9));
    con      := Some (sv_str (at_ 10));
    proper   := Some (sv_str (at_ 11));
    ra       := TryParse_double (at_ 12);
    dec      := TryParse_double (at_ 13);
    pos_src  := Some (sv_str (at_ 14));
    dist     := TryParse_double (at_ 15);
    x0       := TryParse_double (at_ 16);
    y0       := TryParse_double (at_ 17);
    z0       := TryParse_double (at_ 18);
    dist_src := Some (sv_str (at_ 19));
    mag      := TryParse_double (at_ 20);
    absmag   := TryParse_double (at_ 21);
    mag_src  := Some (sv_str (at_ 22))
  |}.

(** The text-kind columns of a record. *)
Definition text_fields (r : t) : list (option chars) :=
  [tyc r; gl r; bayer r; flam r; con r; proper r; pos_src r;
   dist_src r; mag_src r].

End V1.

(** [struct V2] (lines 289-362). *)
Module V2.

Record t : Type := mk {
  id        : option Z;
  tyc       : option chars;
  gaia      : option Z;
  hyg       : option Z;
  hip       : option Z;
  hd        : option Z;
  hr        : option Z;
  gl        : option chars;
  bayer     : option chars;
  flam      : option chars;
  con       : option chars;
  proper    : option chars;
  ra        : option fp_value;
  dec       : option fp_value;
  pos_src   : option chars;
  dist      : option fp_value;
  x0        : option fp_value;
  y0        : option fp_value;
  z0        : option fp_value;
  dist_src  : option chars;
  mag       : option fp_value;
  absmag    : option fp_value;
  mag_src   : option chars;
  rv        : option fp_value;
  rv_src    : option chars;
  pm_ra     : option fp_value;
  pm_dec    : option fp_value;
  pm_src    : option fp_value;
  vx        : option fp_value;
  vy        : option fp_value;
  vz        : option fp_value;
  spect     : option fp_value;
  spect_src : option chars
}.

Definition s_ElementCount : nat := 33.

(** The constructor: column [i] is read from [_values[i]].  The array
    holds [s_ElementCount] tokens ([ToArray] checks it), so the default
    of [nth] is never read. *)
Definition make (_values : list string_view) : t :=
  let at_ (i : nat) := nth i _values (mk_sv [] 0) in
  {|
    id        := TryParse_size_t (at_ 0);
    tyc       := Some (sv_str (at_ 1));
    gaia      := TryParse_size_t (at_ 2);
    hyg       := TryParse_size_t (at_ 3);
    hip       := TryParse_size_t (at_ 4);
    hd        := TryParse_size_t (at_ 5);
    hr        := TryParse_size_t (at_ 6);
    gl        := Some (sv_str (at_ 7));
    bayer     := Some (sv_str (at_ 8));
    flam      := Some (sv_str (at_ 9));
    con       := Some (sv_str (at_ 10));
    proper    := Some (sv_str (at_ 11));
    ra        := TryParse_double (at_ 12);
    dec       := TryParse_double (at_ 13);
    pos_src   := Some (sv_str (at_ 14));
    dist      := TryParse_double (at_ 15);
    x0        := TryParse_double (at_ 16);
    y0        := TryParse_double (at_ 17);
    z0        := TryParse_double (at_ 18);
    dist_src  := Some (sv_str (at_ 19));
    mag       := TryParse_double (at_ 20);
    absmag    := TryParse_double (at_ 21);
    mag_src   := Some (sv_str (at_ 22));
    rv        := TryParse_double (at_ 23);
    rv_src    := Some (sv_str (at_ 24));
    pm_ra     := TryParse_double (at_ 25);
    pm_dec    := TryParse_double (at_ 26);
    pm_src    := TryParse_double (at_ 27);
    vx        := TryParse_double (at_ 28);
    vy        := TryParse_double (at_ 29);
    vz        := TryParse_double (at_ 30);
    spect     := TryParse_double (at_ 31);
    spect_src := Some (sv_str (at_ 32))
  |}.

(** The text-kind columns of a record. *)
Definition text_fields (r : t) : list (option chars) :=
  [tyc r; gl r; bayer r; flam r; con r; proper r; pos_src r;
   dist_src r; mag_src r; rv_src r; spect_src r].

End V2.

(** [struct V3] (lines 370-445). *)
Module V3.

Record t : Type := mk {
  id        : option Z;
  tyc       : option chars;
  gaia      : option Z;
  hyg       : option Z;
  hip       : option Z;
  hd        : option Z;
  hr        : option Z;
  gl        : option chars;
  bayer     : option chars;
  flam      : option chars;
  con       : option chars;
  proper    : option chars;
  ra        : option fp_value;
  dec       : option fp_value;
  pos_src   : option chars;
  dist      : option fp_value;
  x0        : option fp_value;
  y0        : option fp_value;
  z0        : option fp_value;
  dist_src  : option chars;
  mag       : option fp_value;
  absmag    : option fp_value;
  ci        : option fp_value;
  mag_src   : option chars;
  rv        : option fp_value;
  rv_src    : option chars;
  pm_ra     : option fp_value;
  pm_dec    : option fp_value;
  pm_src    : option fp_value;
  vx        : option fp_value;
  vy        : option fp_value;
  vz        : option fp_value;
  spect     : option fp_value;
  spect_src : option chars
}.

Definition s_ElementCount : nat := 34.

(** The constructor: column [i] is read from [_values[i]].  The array
    holds [s_ElementCount] tokens ([ToArray] checks it), so the default
    of [nth] is never read. *)
Definition make (_values : list string_view) : t :=
  let at_ (i : nat) := nth i _values (mk_sv [] 0) in
  {|
    id        := TryParse_size_t (at_ 0);
    tyc       := Some (sv_str (at_ 1));
    gaia      := TryParse_size_t (at_ 2);
    hyg       := TryParse_size_t (at_ 3);
    hip       := TryParse_size_t (at_ 4);
    hd        := TryParse_size_t (at_ 5);
    hr        := TryParse_size_t (at_ 6);
    gl        := Some (sv_str (at_ 7));
    bayer     := Some (sv_str (at_ 8));
    flam      := Some (sv_str (at_ 9));
    con       := Some (sv_str (at_ 10));
    proper    := Some (sv_str (at_ 11));
    ra        := TryParse_double (at_ 12);
    dec       := TryParse_double (at_ 13);
    pos_src   := Some (sv_str (at_ 14));
    dist      := TryParse_double (at_ 15);
    x0        := TryParse_double (at_ 16);
    y0        := TryParse_double (at_ 17);
    z0        := TryParse_double (at_ 18);
    dist_src  := Some (sv_str (at_ 19));
    mag       := TryParse_double (at_ 20);
    absmag    := TryParse_double (at_ 21);
    ci        := TryParse_double (at_ 22);
    mag_src   := Some (sv_str (at_ 23));
    rv        := TryParse_double (at_ 24);
    rv_src    := Some (sv_str (at_ 25));
    pm_ra     := TryParse_double (at_ 26);
    pm_dec    := TryParse_double (at_ 27);
    pm_src    := TryParse_double (at_ 28);
    vx        := TryParse_double (at_ 29);
    vy        := TryParse_double (at_ 30);
    vz        := TryParse_double (at_ 31);
    spect     := TryParse_double (at_ 32);
    spect_src := Some (sv_str (at_ 33))
  |}.

(** The text-kind columns of a record. *)
Definition text_fields (r : t) : list (option chars) :=
  [tyc r; gl r; bayer r; flam r; con r; proper r; pos_src r;
   dist_src r; mag_src r; rv_src r; spect_src r].

End V3.

(** What [Load] needs of its template argument: the column count and
    the constructor from the array of tokens. *)
Class Version (T : Type) : Type := {
  s_ElementCount : nat;
  construct : list string_view -> T
}.

#[export] Instance Version_V1 : Version V1.t :=
  {| s_ElementCount := V1.s_ElementCount; construct := V1.make |}.
#[export] Instance Version_V2 : Version V2.t :=
  {| s_ElementCount := V2.s_ElementCount; construct := V2.make |}.
#[export] Instance Version_V3 : Version V3.t :=
  {| s_ElementCount := V3.s_ElementCount; construct := V3.make |}.

(** ** Exceptions

    The code throws [std::runtime_error] at four places, and the
    library's [exists] throws [std::filesystem::filesystem_error] when
    it cannot find out whether a path exists.  A computation either
    returns or throws, and a throw discards the local state. *)
Inductive exception : Type :=
| runtime_error (what : string)
| filesystem_error.

Definition Invalid_file_path : exception :=
  runtime_error "Invalid file path".
Definition Array_size_mismatch : exception :=
  runtime_error "Vector -> Array size mismatch!".
Definition Element_count_mismatch : exception :=
  runtime_error "Number of elements not consistent with ATHYG version!".
Definition Path_not_valid : exception :=
  runtime_error "Path is not valid.".

Inductive outcome (A : Type) : Type :=
| Return (a : A)
| Throw (e : exception).
Arguments Return {A} a.
Arguments Throw {A} e.

Definition bind {A B : Type} (c : outcome A) (k : A -> outcome B)
    : outcome B :=
  match c with
  | Return a => k a
  | Throw e => Throw e
  end.

Notation "x <- c ;; k" := (bind c (fun x => k))
  (at level 61, c at next level, right associativity).

(** ** Files and streams

    A path names nothing, or its status cannot be determined (a name
    too long, a directory on the way that may not be searched, too many
    symbolic links), or it names a file that cannot be opened, or a
    file with its text. *)
Inductive file_state : Type :=
| Missing
| Inaccessible
| Unreadable
| File (text : chars).

Definition path := string.
Definition filesystem := path -> file_state.

(** [std::filesystem::exists(p)]: false for a path that names nothing,
    and an exception when the status of the path cannot be had. *)
Definition exists_ (fs : filesystem) (p : path) : outcome bool :=
  match fs p with
  | Missing => Return false
  | Inaccessible => Throw filesystem_error
  | Unreadable | File _ => Return true
  end.

(** A [std::stringstream] that is only read: the characters not yet
    extracted and the [failbit].  ([eofbit] needs no field: it is set
    exactly when the last extraction emptied the buffer without meeting
    a newline, and the next [getline] then fails as it does on an empty
    buffer.) *)
Record stringstream : Type := mk_ss {
  ss_buf : chars;
  ss_fail : bool
}.

(** [result << fs.rdbuf()]: inserting no character sets [failbit]. *)
Definition insert_rdbuf (text : chars) : stringstream :=
  match text with
  | [] => mk_ss [] true
  | _ :: _ => mk_ss text false
  end.

(** [ReadAllText] (lines 39-58). *)
Definition ReadAllText (fs : filesystem) (_path : path)
    : outcome stringstream :=
  found <- exists_ fs _path ;;
  if found then
    match fs _path with
    | File text => Return (insert_rdbuf text)   (* fs.is_open() *)
    | _ => Return (mk_ss [] false)
    end
  else Throw Invalid_file_path.

(** [std::getline(csv, line)]: the stream afterwards, and the line when
    the extraction succeeded (the stream converts to [true]). *)
Definition getline (csv : stringstream) : stringstream * option chars :=
  if ss_fail csv then (csv, None)
  else
    match ss_buf csv with
    | [] => (mk_ss [] true, None)
    | _ :: _ =>
        let (line, rest) :=
          span (fun c => negb (Ascii.eqb c newline)) (ss_buf csv) in
        (mk_ss (tl rest) false, Some line)
    end.

Lemma span_length p l :
  length (fst (span p l)) + length (snd (span p l)) = length l.
Proof.
  induction l as [|c t IH]; simpl; [reflexivity|].
  destruct (p c); [|reflexivity].
  destruct (span p t); simpl in *. lia.
Qed.

Lemma getline_shrinks csv csv' line :
  getline csv = (csv', Some line) ->
  length (ss_buf csv') < length (ss_buf csv).
Proof.
  unfold getline. destruct (ss_fail csv); [discriminate|].
  destruct (ss_buf csv) as [|c t] eqn:E; [discriminate|].
  pose proof (span_length (fun c => negb (Ascii.eqb c newline)) (c :: t)) as H.
  destruct (span _ (c :: t)) as [l r]. intros [= <- <-]. simpl in *.
  destruct r as [|x r]; simpl in *; [|lia].
  destruct l; simpl in *; lia.
Qed.

(** ** [ToArray] (lines 119-137) and [Load] (lines 462-514) *)

Definition ToArray (_Nm : nat) (_vector : list string_view)
    : outcome (list string_view) :=
  if negb (length _vector =? _Nm) then Throw Array_size_mismatch
  else Return (firstn (Nat.min (length _vector) _Nm) _vector).

Section Load.

Context {T : Type} {version : Version T}.
Variable fs : filesystem.

(** The body of the [while] loop: one line, appended to [result]. *)
Definition Load_line (line : chars) (result : list T) : outcome (list T) :=
  let elements := Split (sv_of_string line) comma s_ElementCount in
  (* Discard elements beyond the count used by this ATHYG version. *)
  let elements :=
    if s_ElementCount <? length elements
    then firstn s_ElementCount elements else elements in
  (* Validate number of elements. *)
  if length elements =? s_ElementCount then
    values <- ToArray s_ElementCount elements ;;
    Return (result ++ [construct values])
  else Throw Element_count_mismatch.

(** [while (std::getline(csv, line)) ...]. *)
Equations? Load_lines (csv : stringstream) (result : list T)
    : outcome (list T) by wf (length (ss_buf csv)) lt :=
  Load_lines csv result with inspect (getline csv) := {
    | exist _ (csv', Some line) E =>
        result' <- Load_line line result ;;
        Load_lines csv' result';
    | exist _ (_, None) _ => Return result }.
Proof. apply getline_shrinks in E. assumption. Qed.

(** The [for] loop over the paths. *)
Fixpoint Load_paths (_athyg_paths : list path) (result : list T)
    : outcome (list T) :=
  match _athyg_paths with
  | [] => Return result
  | p :: rest =>
      found <- exists_ fs p ;;
      if found then
        csv <- ReadAllText fs p ;;
        (* Skip the header (first line) of the CSV. *)
        let (csv, _) := getline csv in
        result <- Load_lines csv result ;;
        Load_paths rest result
      else Throw Path_not_valid
  end.

Definition Load (_athyg_paths : list path) : outcome (list T) :=
  Load_paths _athyg_paths [].

End Load.

(** ** The loader as the specification words it

    The lines of a text: its newline-separated fields, where a final
    newline ends the last line instead of opening an empty one.  The data
    lines are those after the first. *)
Definition text_lines (text : chars) : list chars :=
  let ls := fields newline text in
  match last ls [] with
  | [] => removelast ls
  | _ :: _ => ls
  end.

Definition data_lines (text : chars) : list chars := tl (text_lines text).

(** The data lines a path contributes. *)
Definition file_lines (fs : filesystem) (p : path) : list chars :=
  match fs p with
  | File text => data_lines text
  | _ => []
  end.

(** The lines a stream still holds. *)
Definition stream_lines (csv : stringstream) : list chars :=
  if ss_fail csv then [] else text_lines (ss_buf csv).

(** The number of tokens of a line. *)
Definition token_count (line : chars) : nat :=
  length (Split (sv_of_string line) comma 0).

Section Records.

Context {T : Type} {version : Version T}.

(** The record of a line: built from its first [s_ElementCount]
    tokens. *)
Definition record_of (line : chars) : T :=
  construct
    (firstn s_ElementCount (Split (sv_of_string line) comma s_ElementCount)).

Definition records (fs : filesystem) (p : path) : list T :=
  map record_of (file_lines fs p).

(** A file is well formed when it can be read and none of its data
    lines has too few tokens. *)
Definition well_formed (fs : filesystem) (p : path) : Prop :=
  exists text, fs p = File text /\
    Forall (fun line => s_ElementCount <= token_count line) (data_lines text).

(** A readable file with a data line of too few tokens. *)
Definition has_short_line (fs : filesystem) (p : path) : Prop :=
  exists text, fs p = File text /\
    Exists (fun line => token_count line < s_ElementCount) (data_lines text).

End Records.

(** ** Vocabulary of the claims on [TryParse] *)

(** What follows a token of a line in memory: the end of the line or the
    comma that closed the token. *)
Definition token_tail (tail : chars) : Prop :=
  tail = [] \/ starts_with comma tail.





(** A view that stays inside its buffer. *)
Definition within (t : string_view) : Prop :=
  sv_size t <= length (sv_data t).

(** The five literals [TryParse<bool>] compares with. *)
Definition true_literals : list chars :=
  [L "true"; L "True"; L "TRUE"; L "T"; L "1"].

(** The stream [Load] iterates over for an existing path: the text
    read, its header taken off. *)
Definition after_header (fs : filesystem) (p : path) : stringstream :=
  match ReadAllText fs p with
  | Return csv => fst (getline csv)
  | Throw _ => mk_ss [] true
  end.

(** A text that is empty or holds nothing but one header line, with or
    without its newline. *)
Definition header_only (text : chars) : Prop :=
  exists h, ~ In newline h /\ (text = h \/ text = h ++ [newline]).

(** ** Concrete files for the examples *)

Definition header_V1 : chars :=
  L "id,tyc,gaia,hyg,hip,hd,hr,gl,bayer,flam,con,proper,ra,dec,pos_src,dist,x0,y0,z0,dist_src,mag,absmag,mag_src".

Definition row_sun : chars :=
  L "1,x,3,4,5,6,7,g,b,f,c,Sol,1.5,2,s,3,4,5,6,d,7,8,m".

Definition row_gaia_abc : chars :=
  L "2,,abc,4,5,6,7,,,,,,1.5,-2e1,s,3,4,5,6,d,7,8,".

Definition row_long : chars :=
  L "3,x,3,4,5,6,7,g,b,f,c,p,1.5,2,s,3,4,5,6,d,7,8,m,extra,more".

Definition row_short : chars := L "4,x,3".

(** A small file system: two good files (one ends with a newline, one
    does not), a file with a short line, one with a long line, an empty
    file, a file holding a header only, a file that cannot be opened,
    and a path under a directory that may not be searched.  Every other
    path names nothing. *)
Definition example_fs : filesystem := fun p =>
  if String.eqb p "a.csv" then
    File (header_V1 ++ newline :: row_sun ++ [newline])
  else if String.eqb p "b.csv" then
    File (header_V1 ++ newline :: row_gaia_abc ++ newline :: row_sun)
  else if String.eqb p "short.csv" then
    File (header_V1 ++ newline :: row_sun ++ newline :: row_short)
  else if String.eqb p "long.csv" then
    File (header_V1 ++ newline :: row_long)
  else if String.eqb p "empty.csv" then File []
  else if String.eqb p "header.csv" then File (header_V1 ++ [newline])
  else if String.eqb p "locked.csv" then Unreadable
  else if String.eqb p "sealed/a.csv" then Inaccessible
  else Missing.

(** ** Vocabulary of the further properties *)

Section Load_model.

Context {T : Type} {version : Version T}.

(** Has the line too few tokens for the version? *)
Definition short_line (line : chars) : bool :=
  token_count line <? s_ElementCount.

(** The loader as a function of the files' data lines: the first path
    that names nothing or whose status cannot be had, or the first file
    with a short line, decides the exception; otherwise the files'
    records are concatenated. *)
Fixpoint Load_model (fs : filesystem) (paths : list path)
    : outcome (list T) :=
  match paths with
  | [] => Return []
  | p :: rest =>
      found <- exists_ fs p ;;
      if found then
        if existsb short_line (file_lines fs p)
        then Throw Element_count_mismatch
        else rs <- Load_model fs rest ;; Return (records fs p ++ rs)
      else Throw Path_not_valid
  end.

End Load_model.

(** The columns a version 2 record shares with version 1. *)
Definition V2_to_V1 (r : V2.t) : V1.t :=
  {|
    V1.id       := V2.id r;
    V1.tyc      := V2.tyc r;
    V1.gaia     := V2.gaia r;
    V1.hyg      := V2.hyg r;
    V1.hip      := V2.hip r;
    V1.hd       := V2.hd r;
    V1.hr       := V2.hr r;
    V1.gl       := V2.gl r;
    V1.bayer    := V2.bayer r;
    V1.flam     := V2.flam r;
    V1.con      := V2.con r;
    V1.proper   := V2.proper r;
    V1.ra       := V2.ra r;
    V1.dec      := V2.dec r;
    V1.pos_src  := V2.pos_src r;
    V1.dist     := V2.dist r;
    V1.x0       := V2.x0 r;
    V1.y0       := V2.y0 r;
    V1.z0       := V2.z0 r;
    V1.dist_src := V2.dist_src r;
    V1.mag      := V2.mag r;
    V1.absmag   := V2.absmag r;
    V1.mag_src  := V2.mag_src r
  |}.

(** A version 3 record without its [ci] column. *)
Definition V3_to_V2 (r : V3.t) : V2.t :=
  {|
    V2.id        := V3.id r;
    V2.tyc       := V3.tyc r;
    V2.gaia      := V3.gaia r;
    V2.hyg       := V3.hyg r;
    V2.hip       := V3.hip r;
    V2.hd        := V3.hd r;
    V2.hr        := V3.hr r;
    V2.gl        := V3.gl r;
    V2.bayer     := V3.bayer r;
    V2.flam      := V3.flam r;
    V2.con       := V3.con r;
    V2.proper    := V3.proper r;
    V2.ra        := V3.ra r;
    V2.dec       := V3.dec r;
    V2.pos_src   := V3.pos_src r;
    V2.dist      := V3.dist r;
    V2.x0        := V3.x0 r;
    V2.y0        := V3.y0 r;
    V2.z0        := V3.z0 r;
    V2.dist_src  := V3.dist_src r;
    V2.mag       := V3.mag r;
    V2.absmag    := V3.absmag r;
    V2.mag_src   := V3.mag_src r;
    V2.rv        := V3.rv r;
    V2.rv_src    := V3.rv_src r;
    V2.pm_ra     := V3.pm_ra r;
    V2.pm_dec    := V3.pm_dec r;
    V2.pm_src    := V3.pm_src r;
    V2.vx        := V3.vx r;
    V2.vy        := V3.vy r;
    V2.vz        := V3.vz r;
    V2.spect     := V3.spect r;
    V2.spect_src := V3.spect_src r
  |}.

(** The integer a sign and digits denote. *)
Definition signed_value (sg ds : chars) : Z :=
  let m := Z.of_N (digits_val 10 ds) in
  if list_eq_dec ascii_dec sg (L "-") then (- m)%Z else m.

(** An optional sign, as characters. *)
Definition is_sign_prefix (sg : chars) : Prop :=
  sg = [] \/ sg = L "+" \/ sg = L "-".

(** The values of an integer kind. *)
Definition in_range (T : int_kind) (z : Z) : Prop :=
  if is_unsigned T then (0 <= z < 2 ^ width T)%Z
  else (- 2 ^ (width T - 1) <= z < 2 ^ (width T - 1))%Z.

(** Saturation at the bounds of [long]. *)
Definition clamp_long (z : Z) : Z := Z.max LONG_MIN (Z.min LONG_MAX z).

(** Two views the constructors cannot tell apart: the same text, and
    the same field in each kind of column. *)
Definition same_token (v v' : string_view) : Prop :=
  sv_str v = sv_str v' /\
  TryParse_size_t v = TryParse_size_t v' /\
  TryParse_double v = TryParse_double v'.

(** A token copied out of its line into a string of its own. *)
Definition own_string (v : string_view) : string_view :=
  sv_of_string (sv_str v).

(** A version 2 line and a file holding it. *)
Definition row_V2 : chars :=
  L "1,x,3,4,5,6,7,g,b,f,c,Sol,1.5,2,s,3,4,5,6,d,7,8,m,-9.5,r,1,2,3,4,5,6,7,G2V".

Definition example_fs_V2 : filesystem := fun _ =>
  File (L "header" ++ newline :: row_V2 ++ [newline]).

(** The characters of a decimal constant without exponent. *)
Definition decimal_char (c : ascii) : bool := isdigit c || Ascii.eqb c ".".

(** A carriage return, as a line written with CR LF keeps in front of
    its newline. *)
Definition carriage_return : ascii := "013"%char.

(** * Properties of the tokenizer *)

Lemma fields_not_nil d l : fields d l <> [].
Proof.
  destruct l as [|c t]; simpl; [discriminate|].
  destruct (Ascii.eqb c d); [discriminate|].
  destruct (fields d t); discriminate.
Qed.

Lemma fields_index_of d l :
  fields d l =
  match index_of d l with
  | Some i => firstn i l :: fields d (skipn (S i) l)
  | None => [l]
  end.
Proof.
  induction l as [|c t IH]; simpl; [reflexivity|].
  destruct (Ascii.eqb c d); [reflexivity|].
  rewrite IH. destruct (index_of d t) as [j|]; reflexivity.
Qed.

Lemma sv_str_substr v pos n :
  sv_str (sv_substr v pos n) = firstn n (skipn pos (sv_str v)).
Proof.
  unfold sv_str, sv_substr; simpl.
  rewrite skipn_firstn_comm, firstn_firstn. reflexivity.
Qed.

Lemma sv_str_substr_from v pos :
  sv_str (sv_substr_from v pos) = skipn pos (sv_str v).
Proof.
  unfold sv_str, sv_substr_from; simpl.
  rewrite skipn_firstn_comm. reflexivity.
Qed.

Lemma sv_find_Some v c pos e :
  sv_find v c pos = Some e ->
  exists i, e = pos + i /\ index_of c (skipn pos (sv_str v)) = Some i.
Proof.
  unfold sv_find. destruct (index_of c (skipn pos (sv_str v))) as [i|];
    simpl; [|discriminate].
  intros [= <-]. exists i. split; reflexivity.
Qed.

Lemma sv_find_None v c pos :
  sv_find v c pos = None -> index_of c (skipn pos (sv_str v)) = None.
Proof.
  unfold sv_find. destruct (index_of c (skipn pos (sv_str v)));
    simpl; [discriminate|reflexivity].
Qed.

(** The loop invariant of [Split]: the tokens emitted so far, followed by
    the fields of what lies at and after [start]. *)
Lemma Split_loop_fields v d start result :
  map sv_str (Split_loop v d start result) =
  map sv_str result ++ fields d (skipn start (sv_str v)).
Proof.
  funelim (Split_loop v d start result).
  - rewrite H. rewrite map_app, <- app_assoc. f_equal. simpl.
    destruct (sv_find_Some _ _ _ _ E) as (i & Hi & Ei).
    rewrite (fields_index_of _ (skipn start (sv_str _string))), Ei.
    rewrite sv_str_substr, skipn_skipn, Hi.
    replace (start + i - start) with i by lia.
    replace (start + i + 1) with (S i + start) by lia. reflexivity.
  - rewrite map_app. f_equal. simpl.
    rewrite (fields_index_of _ (skipn start (sv_str _string))).
    rewrite (sv_find_None _ _ _ e), sv_str_substr_from. reflexivity.
Qed.

Lemma Split_fields v d cap : map sv_str (Split v d cap) = fields d (sv_str v).
Proof. unfold Split. rewrite Split_loop_fields. reflexivity. Qed.

(** *** Laws of [fields] *)

Lemma fields_no_delimiter d l : ~ In d l -> fields d l = [l].
Proof.
  induction l as [|c t IH]; simpl; intros H; [reflexivity|].
  destruct (Ascii.eqb_spec c d) as [->|_]; [tauto|].
  rewrite IH by tauto. reflexivity.
Qed.

Lemma fields_app d a b : fields d (a ++ d :: b) = fields d a ++ fields d b.
Proof.
  induction a as [|c t IH]; simpl.
  - rewrite Ascii.eqb_refl. reflexivity.
  - destruct (Ascii.eqb c d); rewrite IH; [reflexivity|].
    pose proof (fields_not_nil d t). destruct (fields d t); [contradiction|].
    reflexivity.
Qed.

Lemma length_fields d l :
  length (fields d l) = S (count_occ ascii_dec l d).
Proof.
  induction l as [|c t IH]; simpl; [reflexivity|].
  destruct (Ascii.eqb_spec c d) as [->|Hn].
  - destruct (ascii_dec d d); [|contradiction]. simpl. rewrite IH. reflexivity.
  - destruct (ascii_dec c d); [contradiction|].
    destruct (fields d t); simpl in *; [discriminate|assumption].
Qed.

Lemma join_cons d f fs :
  fs <> [] -> join d (f :: fs) = f ++ d :: join d fs.
Proof. destruct fs; [contradiction|reflexivity]. Qed.

Lemma join_push d c f fs : join d ((c :: f) :: fs) = c :: join d (f :: fs).
Proof. destruct fs; reflexivity. Qed.

Lemma join_fields d l : join d (fields d l) = l.
Proof.
  induction l as [|c t IH]; [reflexivity|].
  pose proof (fields_not_nil d t) as Hne.
  cbn [fields]. destruct (Ascii.eqb_spec c d) as [->|_].
  - rewrite join_cons by assumption. rewrite IH. reflexivity.
  - destruct (fields d t) as [|f fs]; [contradiction|].
    rewrite join_push. f_equal. exact IH.
Qed.

Lemma fields_delimiter_free d l : Forall (fun f => ~ In d f) (fields d l).
Proof.
  induction l as [|c t IH]; simpl.
  - constructor; [intros []|constructor].
  - destruct (Ascii.eqb_spec c d) as [->|Hn].
    + constructor; [intros []|assumption].
    + destruct (fields d t) as [|f fs].
      * constructor; [|constructor]. simpl. intros [H|[]]. congruence.
      * inversion IH as [|? ? Hf Hfs]; subst.
        constructor; [|assumption]. simpl. intros [H|H]; [congruence|tauto].
Qed.

Lemma index_of_skipn c l i :
  index_of c l = Some i -> starts_with c (skipn i l).
Proof.
  revert i; induction l as [|x t IH]; simpl; intros i H; [discriminate|].
  destruct (Ascii.eqb_spec x c) as [->|_].
  - injection H as <-. exists t. reflexivity.
  - destruct (index_of c t) as [j|]; simpl in H; [|discriminate].
    injection H as <-. apply IH. reflexivity.
Qed.

Lemma sv_tail_substr v d start e :
  sv_find v d start = Some e ->
  starts_with d (sv_tail (sv_substr v start (e - start))).
Proof.
  intros H. pose proof (sv_find_bounds _ _ _ _ H) as [Hle Hlt].
  destruct (sv_find_Some _ _ _ _ H) as (i & -> & Hi).
  apply index_of_skipn in Hi. destruct Hi as [r Hr].
  unfold sv_str in *. rewrite length_firstn in Hlt.
  unfold sv_tail, sv_substr; simpl.
  rewrite skipn_skipn in *.
  replace (Nat.min (start + i - start) (sv_size v - start) + start)
    with (i + start) by lia.
  rewrite skipn_firstn_comm in Hr.
  destruct (skipn (i + start) (sv_data v)) as [|x t] eqn:E.
  - rewrite firstn_nil in Hr. discriminate.
  - destruct (sv_size v - (i + start)) eqn:E'; simpl in Hr; [discriminate|].
    injection Hr as -> _. exists t. reflexivity.
Qed.

Lemma sv_tail_substr_from v start :
  start <= sv_size v -> sv_tail (sv_substr_from v start) = sv_tail v.
Proof.
  intros H. unfold sv_tail, sv_substr_from; simpl.
  rewrite skipn_skipn. f_equal. lia.
Qed.

(** [substr] is only asked for positions inside the view, and every
    token is a [token_of] the line. *)
Lemma Split_loop_in_range v d start result :
  start <= sv_size v ->
  Forall (token_of v d) result ->
  Forall (token_of v d) (Split_loop v d start result).
Proof.
  funelim (Split_loop v d start result); intros Hs Hr.
  - pose proof (sv_find_bounds _ _ _ _ E) as [Hle Hlt].
    unfold sv_str in Hlt. rewrite length_firstn in Hlt.
    apply H; [lia|].
    apply Forall_app. split; [assumption|].
    constructor; [|constructor]. left. apply sv_tail_substr. assumption.
  - apply Forall_app. split; [assumption|].
    constructor; [|constructor]. right. apply sv_tail_substr_from. assumption.
Qed.

Lemma Split_token_of v d cap : Forall (token_of v d) (Split v d cap).
Proof. apply Split_loop_in_range; [lia|constructor]. Qed.


Lemma length_Split v d cap :
  length (Split v d cap) = length (fields d (sv_str v)).
Proof. rewrite <- (Split_fields v d cap), length_map. reflexivity. Qed.

Lemma sv_str_of_string s : sv_str (sv_of_string s) = s.
Proof. apply firstn_all. Qed.

Lemma token_count_fields line :
  token_count line = S (count_occ ascii_dec line comma).
Proof.
  unfold token_count. rewrite length_Split, sv_str_of_string.
  apply length_fields.
Qed.

(** A view inside its buffer is the token it denotes in front of what
    follows it. *)
Lemma within_sv_token t : within t -> t = sv_token (sv_str t) (sv_tail t).
Proof.
  destruct t as [data n]. unfold within, sv_token, sv_str, sv_tail. simpl.
  intros H. rewrite firstn_skipn, length_firstn.
  f_equal. lia.
Qed.

Lemma Split_loop_within v d start result :
  within v -> Forall within result ->
  Forall within (Split_loop v d start result).
Proof.
  intros Hv. funelim (Split_loop v d start result); intros Hr.
  - apply H; [assumption|]. apply Forall_app. split; [assumption|].
    constructor; [|constructor].
    unfold within, sv_substr in *. simpl. rewrite length_skipn. lia.
  - apply Forall_app. split; [assumption|].
    constructor; [|constructor].
    unfold within, sv_substr_from in *. simpl. rewrite length_skipn. lia.
Qed.

(** The tokens [Load] hands to the constructors: each lies in the line
    in front of a comma or of the line's end. *)
Lemma Split_line_tokens line cap :
  Forall (fun t => exists tok tail,
            t = sv_token tok tail /\ token_tail tail)
    (Split (sv_of_string line) comma cap).
Proof.
  pose proof (Split_token_of (sv_of_string line) comma cap) as Ht.
  assert (Hw : Forall within (Split (sv_of_string line) comma cap)).
  { apply Split_loop_within; [|constructor].
    unfold within, sv_of_string. simpl. lia. }
  rewrite Forall_forall in *. intros t Hin.
  exists (sv_str t), (sv_tail t). split.
  - apply within_sv_token, Hw, Hin.
  - destruct (Ht t Hin) as [H|H]; [right; exact H|left].
    rewrite H. unfold sv_tail, sv_of_string. simpl. apply skipn_all.
Qed.

(** * Properties of the loader

    Lines of a stream first. *)

Lemma span_spec p l a b :
  span p l = (a, b) ->
  l = a ++ b /\ Forall (fun c => p c = true) a /\
  (b = [] \/ exists c r, b = c :: r /\ p c = false).
Proof.
  revert a b; induction l as [|x t IH]; simpl; intros a b H.
  - injection H as <- <-. auto.
  - destruct (p x) eqn:Px.
    + destruct (span p t) as [a' b']. injection H as <- <-.
      destruct (IH _ _ eq_refl) as (-> & Ha & Hb). auto.
    + injection H as <- <-. split; [reflexivity|]. split; [constructor|].
      right. eauto.
Qed.

Lemma last_cons_nonempty (A : Type) (x : A) (l : list A) (d : A) :
  l <> [] -> last (x :: l) d = last l d.
Proof. destruct l; [contradiction|reflexivity]. Qed.

Lemma removelast_cons_nonempty (A : Type) (x : A) (l : list A) :
  l <> [] -> removelast (x :: l) = x :: removelast l.
Proof. destruct l; [contradiction|reflexivity]. Qed.

(** One [getline] on a nonempty buffer takes the first line off. *)
Lemma text_lines_span buf line rest :
  buf <> [] ->
  span (fun c => negb (Ascii.eqb c newline)) buf = (line, rest) ->
  text_lines buf = line :: text_lines (tl rest).
Proof.
  intros Hne H. apply span_spec in H. destruct H as (-> & Hl & Hr).
  assert (Hnl : ~ In newline line).
  { intros Hin. rewrite Forall_forall in Hl. apply Hl in Hin.
    rewrite Ascii.eqb_refl in Hin. discriminate. }
  destruct Hr as [->|(c & r & -> & Hc)].
  - rewrite app_nil_r in *. unfold text_lines.
    rewrite fields_no_delimiter by assumption. simpl.
    destruct line; [contradiction|reflexivity].
  - apply negb_false_iff, Ascii.eqb_eq in Hc. subst c. simpl.
    unfold text_lines. rewrite fields_app, fields_no_delimiter by assumption.
    simpl app. pose proof (fields_not_nil newline r) as Hf.
    rewrite last_cons_nonempty by assumption.
    destruct (last (fields newline r) []); [|reflexivity].
    apply removelast_cons_nonempty. assumption.
Qed.

Lemma stream_lines_getline csv :
  match getline csv with
  | (csv', Some line) => stream_lines csv = line :: stream_lines csv'
  | (csv', None) => stream_lines csv = [] /\ stream_lines csv' = []
  end.
Proof.
  unfold getline, stream_lines. destruct csv as [buf fail]; simpl.
  destruct fail; simpl; [auto|].
  destruct buf as [|c t]; simpl ss_buf; [auto|].
  destruct (span _ (c :: t)) as [line rest] eqn:E. simpl.
  apply text_lines_span; [discriminate|assumption].
Qed.

Section Load_facts.

Context {T : Type} {version : Version T}.
Variable fs : filesystem.

Lemma Load_line_enough line (result : list T) :
  s_ElementCount <= token_count line ->
  Load_line line result = Return (result ++ [record_of line]).
Proof.
  unfold Load_line, record_of, token_count, Split. intros H.
  set (els := Split_loop (sv_of_string line) comma 0 []) in *.
  destruct (s_ElementCount <? length els) eqn:E.
  - apply Nat.ltb_lt in E.
    assert (Hl : length (firstn s_ElementCount els) = s_ElementCount)
      by (rewrite length_firstn; lia).
    rewrite Hl, Nat.eqb_refl. unfold ToArray.
    rewrite Hl, Nat.eqb_refl. simpl.
    rewrite Nat.min_id, firstn_firstn, Nat.min_id. reflexivity.
  - apply Nat.ltb_ge in E. assert (Hl : length els = s_ElementCount) by lia.
    rewrite Hl, Nat.eqb_refl. unfold ToArray.
    rewrite Hl, Nat.eqb_refl. simpl.
    rewrite Nat.min_id. reflexivity.
Qed.

Lemma Load_line_short line (result : list T) :
  token_count line < s_ElementCount ->
  Load_line line result = Throw Element_count_mismatch.
Proof.
  unfold Load_line, token_count, Split. intros H.
  set (els := Split_loop (sv_of_string line) comma 0 []) in *.
  destruct (s_ElementCount <? length els) eqn:E.
  - apply Nat.ltb_lt in E. lia.
  - destruct (length els =? s_ElementCount) eqn:E'; [|reflexivity].
    apply Nat.eqb_eq in E'. lia.
Qed.

(** The [while] loop on a stream all of whose lines have enough
    tokens: one record per line, in line order. *)
Lemma Load_lines_enough csv (result : list T) :
  Forall (fun line => s_ElementCount <= token_count line)
    (stream_lines csv) ->
  Load_lines csv result = Return (result ++ map record_of (stream_lines csv)).
Proof.
  funelim (Load_lines csv result); intros Hall.
  - pose proof (stream_lines_getline csv) as Hs. rewrite E in Hs.
    rewrite Hs in *. inversion Hall as [|? ? Hline Hrest]; subst.
    rewrite Load_line_enough by assumption. simpl bind.
    rewrite H by assumption. simpl. rewrite <- app_assoc. reflexivity.
  - pose proof (stream_lines_getline csv) as Hs. rewrite e in Hs.
    destruct Hs as [-> _]. simpl. rewrite app_nil_r. reflexivity.
Qed.

(** ... and on a stream with a line of too few tokens. *)
Lemma Load_lines_short csv (result : list T) :
  Exists (fun line => token_count line < s_ElementCount)
    (stream_lines csv) ->
  Load_lines csv result = Throw Element_count_mismatch.
Proof.
  funelim (Load_lines csv result); intros Hex.
  - pose proof (stream_lines_getline csv) as Hs. rewrite E in Hs.
    rewrite Hs in Hex.
    destruct (Nat.lt_ge_cases (token_count line) s_ElementCount) as [Hlt|Hge].
    + rewrite Load_line_short by assumption. reflexivity.
    + rewrite Load_line_enough by assumption. simpl bind.
      apply H. inversion Hex; subst; [lia|assumption].
  - pose proof (stream_lines_getline csv) as Hs. rewrite e in Hs.
    destruct Hs as [Hs _]. rewrite Hs in Hex. inversion Hex.
Qed.

(** The only exception the [while] loop can raise. *)
Lemma Load_lines_outcome csv (result : list T) :
  (exists rs, Load_lines csv result = Return (result ++ rs)) \/
  Load_lines csv result = Throw Element_count_mismatch.
Proof.
  destruct (Exists_dec (fun line => token_count line < s_ElementCount)
              (stream_lines csv)) as [Hex|Hnex].
  - intros line. destruct (lt_dec (token_count line) s_ElementCount); auto.
  - right. apply Load_lines_short. assumption.
  - left. eexists. apply Load_lines_enough.
    apply Forall_Exists_neg in Hnex.
    eapply Forall_impl; [|exact Hnex]. simpl. intros. lia.
Qed.

Lemma stream_lines_after_header p :
  stream_lines (after_header fs p) = file_lines fs p.
Proof.
  unfold after_header, ReadAllText, file_lines, exists_.
  destruct (fs p) as [| | |text]; try reflexivity.
  cbn [bind]. unfold data_lines. destruct text as [|c t]; [reflexivity|].
  simpl insert_rdbuf.
  pose proof (stream_lines_getline (mk_ss (c :: t) false)) as Hs.
  destruct (getline (mk_ss (c :: t) false)) as [csv' [line|]] eqn:E.
  - unfold stream_lines at 1 in Hs. simpl in Hs. rewrite Hs. reflexivity.
  - unfold getline in E. simpl in E.
    destruct (span _ t) in E; destruct (negb _) in E; discriminate.
Qed.

Lemma Load_paths_cons p rest (result : list T) :
  Load_paths fs (p :: rest) result =
  (found <- exists_ fs p ;;
   if found then
     result' <- Load_lines (after_header fs p) result ;;
     Load_paths fs rest result'
   else Throw Path_not_valid).
Proof.
  simpl. unfold after_header, ReadAllText, exists_.
  destruct (fs p) as [| | |text]; simpl; try reflexivity.
  destruct (getline (insert_rdbuf text)); reflexivity.
Qed.

End Load_facts.

(** ** The loop over the paths *)

Section Load_paths_facts.

Context {T : Type} {version : Version T}.
Variable fs : filesystem.

Lemma well_formed_exists p :
  well_formed fs p -> exists_ fs p = Return true.
Proof. intros (text & H & _). unfold exists_. rewrite H. reflexivity. Qed.

Lemma well_formed_lines p :
  well_formed fs p ->
  Forall (fun line => s_ElementCount <= token_count line) (file_lines fs p).
Proof. intros (text & H & Hall). unfold file_lines. rewrite H. exact Hall. Qed.

Lemma no_short_line_enough p :
  ~ has_short_line fs p ->
  Forall (fun line => s_ElementCount <= token_count line) (file_lines fs p).
Proof.
  intros Hn. unfold file_lines. destruct (fs p) as [| | |text] eqn:E;
    try constructor.
  apply Forall_forall. intros line Hin.
  destruct (le_lt_dec s_ElementCount (token_count line)) as [|Hlt];
    [assumption|].
  exfalso. apply Hn. exists text. split; [exact E|].
  apply Exists_exists. eauto.
Qed.

Lemma Load_paths_well_formed paths (result : list T) :
  (forall p, In p paths -> well_formed fs p) ->
  Load_paths fs paths result = Return (result ++ flat_map (records fs) paths).
Proof.
  revert result; induction paths as [|p rest IH]; intros result Hwf.
  - simpl. rewrite app_nil_r. reflexivity.
  - rewrite Load_paths_cons.
    rewrite well_formed_exists by (apply Hwf; left; reflexivity).
    cbn [bind]. rewrite Load_lines_enough;
      rewrite stream_lines_after_header;
      [|apply well_formed_lines, Hwf; left; reflexivity].
    simpl bind. rewrite IH by (intros q Hq; apply Hwf; right; assumption).
    simpl. unfold records at 2. rewrite app_assoc. reflexivity.
Qed.

(** Sequencing: the loop over [pre ++ rest] is the loop over [pre]
    followed, unless it threw, by the loop over [rest]. *)
Lemma Load_paths_app pre rest (result : list T) :
  Load_paths fs (pre ++ rest) result =
  (result' <- Load_paths fs pre result ;; Load_paths fs rest result').
Proof.
  revert result; induction pre as [|p pre IH]; intros result;
    [reflexivity|].
  rewrite <- app_comm_cons, !Load_paths_cons.
  destruct (exists_ fs p) as [[|]|e]; cbn [bind]; try reflexivity.
  destruct (Load_lines (after_header fs p) result); cbn [bind]; auto.
Qed.


(** So does a path whose status cannot be determined: the exception of
    [exists] is not caught. *)
Lemma Load_paths_inaccessible p rest (result : list T) :
  fs p = Inaccessible ->
  Load_paths fs (p :: rest) result = Throw filesystem_error.
Proof. intros H. simpl. unfold exists_. rewrite H. reflexivity. Qed.

(** So does a file with a line of too few tokens. *)
Lemma Load_paths_short p rest (result : list T) :
  has_short_line fs p ->
  Load_paths fs (p :: rest) result = Throw Element_count_mismatch.
Proof.
  intros (text & H & Hex). rewrite Load_paths_cons.
  unfold exists_. rewrite H. cbn [bind].
  rewrite Load_lines_short; [reflexivity|].
  rewrite stream_lines_after_header. unfold file_lines. rewrite H. exact Hex.
Qed.

(** A file without data lines leaves [result] as it is. *)
Lemma Load_paths_no_lines p rest (result : list T) :
  exists_ fs p = Return true -> file_lines fs p = [] ->
  Load_paths fs (p :: rest) result = Load_paths fs rest result.
Proof.
  intros He Hl. rewrite Load_paths_cons, He. cbn [bind].
  rewrite Load_lines_enough; rewrite stream_lines_after_header, Hl;
    [|constructor].
  simpl. rewrite app_nil_r. reflexivity.
Qed.

(** While every path exists, the loop returns or reports a short
    line. *)
Lemma Load_paths_all_exist pre (result : list T) :
  (forall q, In q pre -> exists_ fs q = Return true) ->
  (exists rs, Load_paths fs pre result = Return rs) \/
  Load_paths fs pre result = Throw Element_count_mismatch.
Proof.
  revert result; induction pre as [|p pre IH]; intros result Hall.
  - left. eexists. reflexivity.
  - rewrite Load_paths_cons.
    rewrite (Hall p (or_introl eq_refl)). cbn [bind].
    destruct (Load_lines_outcome (after_header fs p) result) as [[rs ->]| ->];
      [|right; reflexivity].
    simpl bind. apply IH. intros q Hq. apply Hall. right. assumption.
Qed.

(** While no file has a short line and every path has a status, the
    loop returns or reports a path that names nothing. *)
Lemma Load_paths_no_short pre (result : list T) :
  (forall q, In q pre -> ~ has_short_line fs q /\ fs q <> Inaccessible) ->
  (exists rs, Load_paths fs pre result = Return rs) \/
  Load_paths fs pre result = Throw Path_not_valid.
Proof.
  revert result; induction pre as [|p pre IH]; intros result Hall.
  - left. eexists. reflexivity.
  - rewrite Load_paths_cons.
    destruct (Hall p (or_introl eq_refl)) as [Hns Hacc].
    unfold exists_. destruct (fs p) eqn:Ef; cbn [bind];
      [right; reflexivity|contradiction| |];
      (rewrite Load_lines_enough
         by (rewrite stream_lines_after_header;
             apply no_short_line_enough; assumption));
      cbn [bind]; apply IH; intros q Hq; apply Hall; right; assumption.
Qed.

(** What the loop can raise: its own two errors and the one of
    [exists]; those of [ReadAllText] and [ToArray] cannot surface. *)
Lemma Load_paths_outcome paths (result : list T) :
  (exists rs, Load_paths fs paths result = Return rs) \/
  Load_paths fs paths result = Throw Element_count_mismatch \/
  Load_paths fs paths result = Throw Path_not_valid \/
  Load_paths fs paths result = Throw filesystem_error.
Proof.
  revert result; induction paths as [|p rest IH]; intros result.
  - left. eexists. reflexivity.
  - rewrite Load_paths_cons.
    destruct (exists_ fs p) as [[|]|e] eqn:Ee; cbn [bind]; [|auto|].
    + destruct (Load_lines_outcome (after_header fs p) result)
        as [[rs ->]| ->]; [|auto].
      cbn [bind]. apply IH.
    + unfold exists_ in Ee. destruct (fs p); try discriminate Ee.
      injection Ee as <-. auto.
Qed.

(** Every record of the result comes out of the constructor. *)
Lemma Load_line_built line (result : list T) rs :
  Forall (fun r => exists values, r = construct values) result ->
  Load_line line result = Return rs ->
  Forall (fun r => exists values, r = construct values) rs.
Proof.
  unfold Load_line. intros Hr.
  destruct (length _ =? s_ElementCount); [|discriminate].
  destruct (ToArray _ _) as [values|]; simpl; [|discriminate].
  intros [= <-]. apply Forall_app. split; [assumption|].
  constructor; [eauto|constructor].
Qed.

Lemma Load_lines_built csv (result : list T) rs :
  Forall (fun r => exists values, r = construct values) result ->
  Load_lines csv result = Return rs ->
  Forall (fun r => exists values, r = construct values) rs.
Proof.
  revert rs. funelim (Load_lines csv result); intros rs Hr Heq.
  - destruct (Load_line line result) as [result'|] eqn:El;
      simpl in Heq; [|discriminate].
    eapply H; [|exact Heq]. eapply Load_line_built; eassumption.
  - injection Heq as <-. assumption.
Qed.

Lemma Load_paths_built paths (result : list T) rs :
  Forall (fun r => exists values, r = construct values) result ->
  Load_paths fs paths result = Return rs ->
  Forall (fun r => exists values, r = construct values) rs.
Proof.
  revert result; induction paths as [|p rest IH]; intros result Hr Heq.
  - injection Heq as <-. assumption.
  - rewrite Load_paths_cons in Heq.
    destruct (exists_ fs p) as [[|]|e]; cbn [bind] in Heq;
      try discriminate Heq.
    destruct (Load_lines (after_header fs p) result) as [result'|] eqn:El;
      simpl in Heq; [|discriminate].
    eapply IH; [|exact Heq]. eapply Load_lines_built; eassumption.
Qed.

End Load_paths_facts.

(** ** The conversions on tokens *)

Lemma span_app_stop p a b :
  (b = [] \/ exists c r, b = c :: r /\ p c = false) ->
  span p (a ++ b) = (fst (span p a), snd (span p a) ++ b).
Proof.
  intros Hb. induction a as [|x t IH]; simpl.
  - destruct Hb as [->|(c & r & -> & Hc)]; simpl; [reflexivity|].
    rewrite Hc. reflexivity.
  - destruct (p x); [|reflexivity].
    rewrite IH. destruct (span p t). reflexivity.
Qed.

Lemma span_all p a :
  forallb p a = true -> span p a = (a, []).
Proof.
  induction a as [|x t IH]; simpl; [reflexivity|].
  intros H. apply andb_prop in H. destruct H as [Hx Ht].
  rewrite Hx, IH by assumption. reflexivity.
Qed.

Lemma token_tail_stop (p : ascii -> bool) tail :
  p comma = false -> token_tail tail ->
  tail = [] \/ exists c r, tail = c :: r /\ p c = false.
Proof. intros Hp [->|[r ->]]; [left|right]; eauto. Qed.

(** The integer conversions of a delimited token see the token only. *)
Lemma scan_int_token tok tail :
  token_tail tail -> scan_int (tok ++ tail) = scan_int tok.
Proof.
  intros Ht. unfold scan_int.
  rewrite (span_app_stop isspace tok tail)
    by (apply token_tail_stop; [reflexivity|assumption]).
  destruct (span isspace tok) as [ws s1]. simpl fst; simpl snd.
  assert (Hd : forall s, span isdigit (s ++ tail)
                         = (fst (span isdigit s), snd (span isdigit s) ++ tail))
    by (intros s; apply span_app_stop, token_tail_stop;
        [reflexivity|assumption]).
  destruct s1 as [|c t].
  - simpl app. destruct Ht as [->|[r ->]]; reflexivity.
  - simpl app. unfold take_sign.
    destruct (Ascii.eqb c "-"); [|destruct (Ascii.eqb c "+")].
    + rewrite Hd. destruct (span isdigit t). reflexivity.
    + rewrite Hd. destruct (span isdigit t). reflexivity.
    + rewrite app_comm_cons, Hd. destruct (span isdigit (c :: t)). reflexivity.
Qed.

Lemma convert_int_length T nptr :
  snd (convert_int T nptr) = snd (scan_int nptr).
Proof.
  destruct T; unfold convert_int, strtoll, strtoull, strtol, strtoul;
    destruct (scan_int nptr) as [[neg m] e]; reflexivity.
Qed.








Lemma convert_fp_scan T nptr :
  convert_fp T nptr =
  (round_literal (format_of T) (fst (scan_fp nptr)), snd (scan_fp nptr)).
Proof.
  destruct T; unfold convert_fp, strtof, strtod, strtold;
    destruct (scan_fp nptr); reflexivity.
Qed.

(** * The loader on concrete files *)

(** The scenario of the specification: a [gaia] column holding [abc] is
    absent, the other columns are populated by their kinds. *)
Example Load_gaia_abc :
  option_map (map (fun r => (V1.id r, V1.tyc r, V1.gaia r, V1.dec r, V1.mag_src r)))
    (match Load (T:=V1.t) example_fs ["b.csv"%string] with
     | Return rs => Some rs
     | Throw _ => None
     end) =
  Some [(Some 2%Z, Some [], None,
         Some (S754_finite true 5629499534213120 (-48)), Some []);
        (Some 1%Z, Some (L "x"), Some 3%Z,
         Some (S754_finite false 4503599627370496 (-51)), Some (L "m"))].
Proof. vm_compute. reflexivity. Qed.

(** A file that exists but cannot be opened raises nothing: it is read
    as a file without lines. *)
Example Load_unreadable :
  Load (T:=V1.t) example_fs ["locked.csv"%string] = Return [].
Proof. vm_compute. reflexivity. Qed.

(** A path whose status cannot be determined lets the exception of
    [exists] out of [Load], whatever was read before. *)
Example Load_inaccessible :
  Load (T:=V1.t) example_fs ["a.csv"; "sealed/a.csv"]%string
  = Throw filesystem_error.
Proof. vm_compute. reflexivity. Qed.

(** * The conversions on concrete tokens *)

(** A tenth is no binary fraction: [strtod] returns the nearest
    [double], [0x1.999999999999ap-4]. *)
Example strtod_tenth :
  strtod (L "0.1") = (S754_finite false 7205759403792794 (-56), 3).
Proof. vm_compute. reflexivity. Qed.

(** Beyond the largest [double] the result is an infinity. *)
Example strtod_overflow :
  strtod (L "1e309") = (S754_infinity false, 5) /\
  strtod (L "1.7976931348623157e308")
  = (S754_finite false 9007199254740991 971, 22).
Proof. split; vm_compute; reflexivity. Qed.

(** Below half the least positive [double] it is a zero, which keeps
    the sign. *)
Example strtod_underflow :
  strtod (L "-1e-400") = (S754_zero true, 7) /\
  strtod (L "4.9e-324") = (S754_finite false 1 (-1074), 8).
Proof. split; vm_compute; reflexivity. Qed.

(** The three types round the same token differently: [16777217] is
    [2^24 + 1], a tie for [float] that goes to the even [2^24], and is
    itself as a [double] and as a [long double]. *)
Example strtof_rounds :
  strtof (L "16777217") = (S754_finite false 8388608 1, 8) /\
  strtod (L "16777217")
  = (S754_finite false (16777217 * 2 ^ 28) (-28), 8) /\
  strtold (L "16777217")
  = (S754_finite false (16777217 * 2 ^ 39) (-39), 8).
Proof. repeat split; vm_compute; reflexivity. Qed.

(** * The claims *)

(** C1: on well-formed files [Load] returns one record per data line,
    the files' records concatenated in the order of the path list and
    each file's records in line order; for two files [A] and [B] the
    result is [records A ++ records B]. *)
Theorem Load_concatenates_records {T : Type} {version : Version T}
    (fs : filesystem) (paths : list path) :
  (forall p, In p paths -> well_formed fs p) ->
  exists rs : list T,
    Load fs paths = Return rs /\
    rs = flat_map (fun p => map record_of (data_lines
           match fs p with File text => text | _ => [] end)) paths /\
    length rs =
      list_sum (map (fun p => length (data_lines
           match fs p with File text => text | _ => [] end)) paths) /\
    (forall A B, paths = [A; B] -> rs = records fs A ++ records fs B).
Proof.
  intros Hwf. exists (flat_map (records fs) paths).
  assert (Hrec : forall p, In p paths ->
            records fs p = map record_of (data_lines
              match fs p with File text => text | _ => [] end)).
  { intros p Hp. destruct (Hwf p Hp) as (text & E & _).
    unfold records, file_lines. rewrite E. reflexivity. }
  split; [apply (Load_paths_well_formed fs paths [] Hwf)|].
  split; [|split].
  - clear Hwf. induction paths as [|p rest IH]; [reflexivity|].
    simpl. rewrite Hrec by (left; reflexivity).
    rewrite IH by (intros q Hq; apply Hrec; right; assumption). reflexivity.
  - clear Hwf. induction paths as [|p rest IH]; [reflexivity|].
    simpl. rewrite length_app, Hrec by (left; reflexivity).
    rewrite length_map.
    rewrite IH by (intros q Hq; apply Hrec; right; assumption). reflexivity.
  - intros A B ->. simpl. rewrite app_nil_r. reflexivity.
Qed.

Lemma Load_concatenates_records_witness :
  (forall p, In p ["a.csv"; "b.csv"]%string ->
     well_formed (T:=V1.t) example_fs p) /\
  exists rs : list V1.t,
    Load example_fs ["a.csv"; "b.csv"]%string = Return rs /\
    rs = flat_map (fun p => map record_of (data_lines
           match example_fs p with File text => text | _ => [] end))
           ["a.csv"; "b.csv"]%string /\
    length rs =
      list_sum (map (fun p => length (data_lines
           match example_fs p with File text => text | _ => [] end))
           ["a.csv"; "b.csv"]%string) /\
    (forall A B, ["a.csv"; "b.csv"]%string = [A; B] ->
       rs = records example_fs A ++ records example_fs B).
Proof.
  assert (H : forall p, In p ["a.csv"; "b.csv"]%string ->
                well_formed (T:=V1.t) example_fs p).
  { intros p [<-|[<-|[]]]; eexists; (split; [reflexivity|]);
      repeat constructor. }
  split; [exact H|].
  exact (Load_concatenates_records example_fs ["a.csv"; "b.csv"]%string H).
Defined.

(** C2 (as amended): a data line with too few tokens, in any file of the
    list, makes [Load] throw, so no record is returned; the exception is
    the element-count error whenever every path in front of that file
    exists. *)
Theorem Load_short_line_aborts {T : Type} {version : Version T}
    (fs : filesystem) (pre post : list path) (p : path) :
  has_short_line fs p ->
  (exists e, Load (T:=T) fs (pre ++ p :: post) = Throw e) /\
  ((forall q, In q pre -> exists_ fs q = Return true) ->
   Load (T:=T) fs (pre ++ p :: post) = Throw Element_count_mismatch).
Proof.
  intros Hshort. unfold Load. rewrite Load_paths_app. split.
  - destruct (Load_paths fs pre []) as [rs|e]; cbn [bind]; [|eauto].
    rewrite Load_paths_short by assumption. eauto.
  - intros Hall.
    destruct (Load_paths_all_exist fs pre [] Hall) as [[rs ->]| ->];
      [|reflexivity].
    cbn [bind]. apply Load_paths_short. assumption.
Qed.

Lemma Load_short_line_aborts_witness :
  has_short_line (T:=V1.t) example_fs "short.csv"%string /\
  (exists e, Load (T:=V1.t) example_fs
     (["a.csv"%string] ++ "short.csv"%string :: ["b.csv"%string]) = Throw e) /\
  ((forall q, In q ["a.csv"%string] -> exists_ example_fs q = Return true) ->
   Load (T:=V1.t) example_fs
     (["a.csv"%string] ++ "short.csv"%string :: ["b.csv"%string])
   = Throw Element_count_mismatch).
Proof.
  assert (H : has_short_line (T:=V1.t) example_fs "short.csv"%string).
  { eexists. split; [reflexivity|].
    apply Exists_cons_tl, Exists_cons_hd. vm_compute. lia. }
  split; [exact H|].
  exact (Load_short_line_aborts example_fs ["a.csv"%string]
           ["b.csv"%string] "short.csv"%string H).
Defined.

(** C2 as stated fails: a path that names nothing in front of the file
    with the short line raises the path error, not the element-count
    error. *)
Lemma Load_short_line_not_always_count_error :
  ~ (forall (fs : filesystem) (paths : list path) (p : path),
       In p paths -> has_short_line (T:=V1.t) fs p ->
       Load (T:=V1.t) fs paths = Throw Element_count_mismatch).
Proof.
  intros H.
  specialize (H example_fs ["nowhere.csv"; "short.csv"]%string
                "short.csv"%string).
  assert (Hs : has_short_line (T:=V1.t) example_fs "short.csv"%string).
  { eexists. split; [reflexivity|].
    apply Exists_cons_tl, Exists_cons_hd. vm_compute. lia. }
  specialize (H (or_intror (or_introl eq_refl)) Hs).
  vm_compute in H. discriminate H.
Qed.




(** C7: a line with more tokens than the version expects is cut down to
    the expected count and builds its record from those first tokens;
    nothing is thrown. *)
Theorem Load_line_truncates {T : Type} {version : Version T}
    (line : chars) (result : list T) :
  s_ElementCount < token_count line ->
  let elements := Split (sv_of_string line) comma s_ElementCount in
  Load_line line result =
    Return (result ++ [construct (firstn s_ElementCount elements)]) /\
  length (firstn s_ElementCount elements) = s_ElementCount /\
  map sv_str (firstn s_ElementCount elements) =
    firstn s_ElementCount (fields comma line).
Proof.
  intros Hlt elements. split; [|split].
  - apply Load_line_enough. lia.
  - unfold token_count, Split in Hlt. unfold elements, Split.
    rewrite length_firstn. lia.
  - unfold elements. rewrite <- firstn_map, Split_fields, sv_str_of_string.
    reflexivity.
Qed.

Lemma Load_line_truncates_witness :
  s_ElementCount (T:=V1.t) < token_count row_long /\
  let elements := Split (sv_of_string row_long) comma (s_ElementCount (T:=V1.t)) in
  Load_line (T:=V1.t) row_long [] =
    Return ([] ++ [construct (firstn s_ElementCount elements)]) /\
  length (firstn (s_ElementCount (T:=V1.t)) elements) = s_ElementCount (T:=V1.t) /\
  map sv_str (firstn (s_ElementCount (T:=V1.t)) elements) =
    firstn (s_ElementCount (T:=V1.t)) (fields comma row_long).
Proof.
  assert (H : s_ElementCount (T:=V1.t) < token_count row_long)
    by (vm_compute; lia).
  split; [exact H|].
  exact (Load_line_truncates (T:=V1.t) row_long [] H).
Defined.

Lemma header_only_no_data text : header_only text -> data_lines text = [].
Proof.
  intros (h & Hnl & [-> | ->]); unfold data_lines, text_lines.
  - rewrite fields_no_delimiter by assumption. simpl.
    destruct h; reflexivity.
  - rewrite fields_app, fields_no_delimiter by assumption. reflexivity.
Qed.

(** C9: an existing file that is empty or holds only a header line adds
    no record and raises nothing; the loop goes on with the next path,
    its result unchanged. *)
Theorem Load_header_only_file {T : Type} {version : Version T}
    (fs : filesystem) (p : path) (text : chars) :
  fs p = File text -> header_only text ->
  (forall rest (result : list T),
     Load_paths fs (p :: rest) result = Load_paths fs rest result) /\
  Load (T:=T) fs [p] = Return [].
Proof.
  intros Hf Hh.
  assert (Hstep : forall rest (result : list T),
            Load_paths fs (p :: rest) result = Load_paths fs rest result).
  { intros rest result. apply Load_paths_no_lines.
    - unfold exists_. rewrite Hf. reflexivity.
    - unfold file_lines. rewrite Hf. apply header_only_no_data. assumption. }
  split; [exact Hstep|]. unfold Load. rewrite Hstep. reflexivity.
Qed.

Lemma Load_header_only_file_witness :
  example_fs "header.csv"%string = File (header_V1 ++ [newline]) /\
  header_only (header_V1 ++ [newline]) /\
  (forall rest (result : list V1.t),
     Load_paths example_fs ("header.csv"%string :: rest) result =
     Load_paths example_fs rest result) /\
  Load (T:=V1.t) example_fs ["header.csv"%string] = Return [].
Proof.
  assert (H : header_only (header_V1 ++ [newline])).
  { exists header_V1. split; [|right; reflexivity].
    vm_compute. intuition discriminate. }
  split; [reflexivity|]. split; [exact H|].
  exact (Load_header_only_file (T:=V1.t) example_fs "header.csv"%string
           (header_V1 ++ [newline]) eq_refl H).
Defined.




(** C5: [TryParse<bool>] is always present, and true exactly on the five
    literals; the empty token gives present false. *)
Theorem TryParse_bool_total (_str : string_view) (tail : chars) :
  (exists b, TryParse_bool _str = Some b /\
     (b = true <-> In (sv_str _str) true_literals)) /\
  TryParse_bool (sv_token [] tail) = Some false.
Proof.
  split; [|reflexivity].
  unfold TryParse_bool, TryParse_return, sv_eqb, true_literals.
  eexists. split; [reflexivity|]. split.
  - intros H. simpl.
    repeat match type of H with
    | context [list_eq_dec ascii_dec ?a ?b] =>
        destruct (list_eq_dec ascii_dec a b) as [E|_]; [symmetry in E; tauto|]
    end. discriminate H.
  - simpl. intros [E|[E|[E|[E|[E|[]]]]]]; rewrite <- E;
      repeat match goal with
      | |- context [list_eq_dec ascii_dec ?a ?b] =>
          destruct (list_eq_dec ascii_dec a b) as [_|N]
      end; try reflexivity; try (exfalso; apply N; reflexivity);
      try discriminate.
Qed.

(** C6: [Split] cuts at every delimiter and nowhere else.  The tokens
    number one more than the delimiters, none holds a delimiter, and
    joining them with the delimiter gives the line back; a line without
    delimiter is its own single token; the tokens of [a ++ d :: b] are
    those of [a] followed by those of [b], so two adjacent delimiters
    enclose an empty token and a delimiter at the end of the line leaves
    an empty last token.  The capacity hint changes nothing. *)
Theorem Split_every_delimiter (v : string_view) (d : ascii) (cap : nat) :
  let tokens := fun s => map sv_str (Split (sv_of_string s) d cap) in
  let line := sv_str v in
  map sv_str (Split v d cap) = tokens line /\
  length (tokens line) = S (count_occ ascii_dec line d) /\
  Forall (fun t => ~ In d t) (tokens line) /\
  join d (tokens line) = line /\
  (~ In d line -> tokens line = [line]) /\
  (forall a b, tokens (a ++ d :: b) = tokens a ++ tokens b) /\
  (forall a b, tokens (a ++ d :: d :: b) = tokens a ++ [] :: tokens b) /\
  (forall a, tokens (a ++ [d]) = tokens a ++ [[]]) /\
  Split v d cap = Split v d 0.
Proof.
  intros tokens line.
  assert (Ht : forall s, tokens s = fields d s).
  { intros s. unfold tokens. rewrite Split_fields, sv_str_of_string.
    reflexivity. }
  rewrite Split_fields. rewrite !Ht. repeat split.
  - apply length_fields.
  - apply fields_delimiter_free.
  - apply join_fields.
  - apply fields_no_delimiter.
  - intros a b. rewrite !Ht. apply fields_app.
  - intros a b. rewrite !Ht, !fields_app. simpl.
    rewrite Ascii.eqb_refl. reflexivity.
  - intros a. rewrite !Ht, fields_app. reflexivity.
Qed.

Lemma Split_every_delimiter_witness :
  ~ In comma (L "abc") /\
  map sv_str (Split (sv_of_string (L "abc")) comma 0) = [L "abc"] /\
  map sv_str (Split (sv_of_string (L "a,,b,")) comma 23)
    = [L "a"; []; L "b"; []].
Proof.
  assert (H : ~ In comma (L "abc")) by (vm_compute; intuition discriminate).
  split; [exact H|]. split.
  - pose proof (Split_every_delimiter (sv_of_string (L "abc")) comma 0)
      as (_ & _ & _ & _ & Hone & _).
    exact (Hone H).
  - pose proof (Split_every_delimiter (sv_of_string (L "a,,b,")) comma 23)
      as (Heq & _).
    exact Heq.
Defined.

(** C8: a text field is always present.  The constructors of the three
    versions store each text column's token as it is, the empty token as
    the empty string; the two text specialisations of [TryParse] never
    return an empty optional; and so every record [Load] returns has all
    its text fields present. *)
Theorem text_fields_present (_values : list string_view) (v : string_view)
    (fs : filesystem) (paths : list path) :
  let token := fun i => Some (sv_str (nth i _values (mk_sv [] 0))) in
  let present := fun fields : list (option chars) =>
    Forall (fun f => f <> None) fields in
  V1.text_fields (V1.make _values)
    = map token [1; 7; 8; 9; 10; 11; 14; 19; 22] /\
  V2.text_fields (V2.make _values)
    = map token [1; 7; 8; 9; 10; 11; 14; 19; 22; 24; 32] /\
  V3.text_fields (V3.make _values)
    = map token [1; 7; 8; 9; 10; 11; 14; 19; 23; 25; 33] /\
  TryParse_string v = Some (sv_str v) /\
  TryParse_string_view v = Some v /\
  (forall rs, Load (T:=V1.t) fs paths = Return rs ->
     Forall (fun r => present (V1.text_fields r)) rs) /\
  (forall rs, Load (T:=V2.t) fs paths = Return rs ->
     Forall (fun r => present (V2.text_fields r)) rs) /\
  (forall rs, Load (T:=V3.t) fs paths = Return rs ->
     Forall (fun r => present (V3.text_fields r)) rs).
Proof.
  intros token present.
  repeat (split; [reflexivity|]).
  split; [|split]; intros rs H;
    (eapply Forall_impl;
     [|exact (Load_paths_built fs paths [] rs (Forall_nil _) H)]);
    intros r [values ->]; unfold present;
    repeat constructor; discriminate.
Qed.

Lemma text_fields_present_witness :
  Load (T:=V1.t) example_fs ["b.csv"%string; "a.csv"%string]
    = Return (records example_fs "b.csv"%string
              ++ records example_fs "a.csv"%string) /\
  Forall (fun r => Forall (fun f => f <> None) (V1.text_fields r))
    (records (T:=V1.t) example_fs "b.csv"%string
     ++ records example_fs "a.csv"%string).
Proof.
  assert (H : Load (T:=V1.t) example_fs ["b.csv"%string; "a.csv"%string]
              = Return (records example_fs "b.csv"%string
                        ++ records example_fs "a.csv"%string))
    by (vm_compute; reflexivity).
  split; [exact H|].
  pose proof (text_fields_present [] (mk_sv [] 0) example_fs
                ["b.csv"%string; "a.csv"%string])
    as (_ & _ & _ & _ & _ & H1 & _).
  exact (H1 _ H).
Defined.

(** What [strtoul] makes of a minus sign and digits. *)
Lemma scan_int_minus ds tail :
  ds <> [] -> forallb isdigit ds = true -> token_tail tail ->
  scan_int ("-"%char :: ds ++ tail) = (true, digits_val 10 ds, S (length ds)).
Proof.
  intros Hne Hds Ht.
  change ("-"%char :: ds ++ tail) with (("-"%char :: ds) ++ tail).
  rewrite scan_int_token by assumption.
  unfold scan_int. simpl. rewrite span_all by assumption.
  destruct ds; [contradiction|reflexivity].
Qed.

(** C10 (as amended): for an unsigned kind of width [w], a minus sign
    followed by digits is present.  While the digits denote at most
    [ULONG_MAX] the value is their negation modulo [2^w]; beyond that
    the conversion saturates and the value is [2^w - 1]. *)
Theorem TryParse_unsigned_minus (T : int_kind) (ds tail : chars) :
  is_unsigned T = true ->
  ds <> [] -> forallb isdigit ds = true -> token_tail tail ->
  let m := Z.of_N (digits_val 10 ds) in
  TryParse_int T (sv_token ("-"%char :: ds) tail) =
    Some (if ULONG_MAX <? m then 2 ^ width T - 1
          else (- m) mod 2 ^ width T)%Z.
Proof.
  intros Hu Hne Hds Ht m.
  unfold TryParse_int, sv_token. simpl sv_data.
  assert (Hs : strtoul ("-"%char :: ds ++ tail) =
               ((if ULONG_MAX <? m then ULONG_MAX else (- m) mod 2 ^ 64)%Z,
                S (length ds))).
  { unfold strtoul. rewrite scan_int_minus by assumption. reflexivity. }
  assert (Hmod : forall w, (w = 16 \/ w = 32 \/ w = 64)%Z ->
            to_unsigned w (if ULONG_MAX <? m then ULONG_MAX
                           else (- m) mod 2 ^ 64)%Z =
            (if ULONG_MAX <? m then 2 ^ w - 1 else (- m) mod 2 ^ w)%Z).
  { intros w Hw. unfold to_unsigned. destruct (ULONG_MAX <? m)%Z.
    - destruct Hw as [->|[->| ->]]; reflexivity.
    - apply Z.mod_mod_divide.
      destruct Hw as [->|[->| ->]];
        [exists (2 ^ 48)%Z|exists (2 ^ 32)%Z|exists 1%Z]; reflexivity. }
  destruct T; try discriminate Hu;
    unfold convert_int, strtoull; rewrite Hs; simpl TryParse_return;
    try (rewrite Hmod by auto); reflexivity.
Qed.

Lemma TryParse_unsigned_minus_witness :
  is_unsigned T_unsigned_short = true /\
  L "1" <> [] /\ forallb isdigit (L "1") = true /\ token_tail (L ",x") /\
  TryParse_int T_unsigned_short (sv_token (L "-1") (L ",x")) = Some 65535%Z.
Proof.
  assert (Ht : token_tail (L ",x")) by (right; eexists; reflexivity).
  assert (Hn : L "1" <> []) by discriminate.
  repeat (split; [first [reflexivity | assumption]|]).
  exact (TryParse_unsigned_minus T_unsigned_short (L "1") (L ",x")
           eq_refl Hn eq_refl Ht).
Defined.

(** C10 as stated fails: digits beyond [ULONG_MAX] do not wrap. *)
Lemma TryParse_unsigned_minus_saturates :
  ~ (forall (T : int_kind) (ds tail : chars),
       is_unsigned T = true ->
       ds <> [] -> forallb isdigit ds = true -> token_tail tail ->
       TryParse_int T (sv_token ("-"%char :: ds) tail) =
         Some ((- Z.of_N (digits_val 10 ds)) mod 2 ^ width T)%Z).
Proof.
  intros H.
  specialize (H T_unsigned_long (L "18446744073709551616") [] eq_refl).
  assert (Hn : L "18446744073709551616" <> []) by discriminate.
  specialize (H Hn eq_refl (or_introl eq_refl)).
  vm_compute in H. discriminate H.
Qed.

(** * Further properties of the loader *)

Section Load_model_facts.

Context {T : Type} {version : Version T}.
Variable fs : filesystem.

Lemma existsb_short_line (lines : list chars) :
  existsb (short_line (T:=T)) lines = true <->
  Exists (fun line => token_count line < s_ElementCount) lines.
Proof.
  rewrite existsb_exists, Exists_exists. unfold short_line.
  split; intros (line & Hin & H); exists line; split; try assumption;
    apply Nat.ltb_lt; assumption.
Qed.

Lemma not_existsb_short_line (lines : list chars) :
  existsb (short_line (T:=T)) lines = false ->
  Forall (fun line => s_ElementCount <= token_count line) lines.
Proof.
  intros H. apply Forall_forall. intros line Hin.
  destruct (le_lt_dec s_ElementCount (token_count line)) as [|Hlt];
    [assumption|].
  assert (E : existsb (short_line (T:=T)) lines = true)
    by (apply existsb_short_line, Exists_exists; eauto).
  congruence.
Qed.

(** The loop with its accumulator against the model. *)
Lemma Load_paths_model paths (result : list T) :
  Load_paths fs paths result =
  (rs <- Load_model fs paths ;; Return (result ++ rs)).
Proof.
  revert result; induction paths as [|p rest IH]; intros result.
  - simpl. rewrite app_nil_r. reflexivity.
  - rewrite Load_paths_cons. cbn [Load_model].
    destruct (exists_ fs p) as [[|]|e]; cbn [bind]; try reflexivity.
    destruct (existsb short_line (file_lines fs p)) eqn:E.
    + rewrite Load_lines_short; [reflexivity|].
      rewrite stream_lines_after_header. apply existsb_short_line. exact E.
    + rewrite Load_lines_enough
        by (rewrite stream_lines_after_header;
            apply not_existsb_short_line; exact E).
      cbn [bind]. rewrite IH, stream_lines_after_header.
      destruct (Load_model fs rest) as [rs|e]; cbn [bind]; [|reflexivity].
      unfold records. rewrite app_assoc. reflexivity.
Qed.

Lemma Load_is_model paths : Load (T:=T) fs paths = Load_model fs paths.
Proof.
  unfold Load. rewrite Load_paths_model.
  destruct (Load_model fs paths); reflexivity.
Qed.

Lemma Load_model_app pre post :
  Load_model (T:=T) fs (pre ++ post) =
  (r1 <- Load_model fs pre ;; r2 <- Load_model fs post ;; Return (r1 ++ r2)).
Proof.
  induction pre as [|p pre IH].
  - simpl. destruct (Load_model fs post); reflexivity.
  - rewrite <- app_comm_cons. cbn [Load_model].
    destruct (exists_ fs p) as [[|]|e]; cbn [bind]; try reflexivity.
    destruct (existsb short_line (file_lines fs p)); [reflexivity|].
    rewrite IH. destruct (Load_model fs pre) as [r1|]; cbn [bind];
      [|reflexivity].
    destruct (Load_model fs post) as [r2|]; cbn [bind]; [|reflexivity].
    rewrite app_assoc. reflexivity.
Qed.

Lemma Load_model_skip p rest :
  exists_ fs p = Return true -> file_lines fs p = [] ->
  Load_model (T:=T) fs (p :: rest) = Load_model fs rest.
Proof.
  intros He Hl. cbn [Load_model]. unfold records. rewrite He, Hl. simpl.
  destruct (Load_model fs rest); reflexivity.
Qed.

Lemma has_short_line_existsb p :
  has_short_line (T:=T) fs p <->
  existsb (short_line (T:=T)) (file_lines fs p) = true.
Proof.
  rewrite existsb_short_line. unfold has_short_line, file_lines. split.
  - intros (text & -> & H). exact H.
  - destruct (fs p) as [| | |text]; intros H; try (inversion H; fail).
    exists text. split; [reflexivity|assumption].
Qed.

Lemma Load_model_returns paths rs :
  Load_model (T:=T) fs paths = Return rs <->
  (forall p, In p paths ->
     exists_ fs p = Return true /\ ~ has_short_line fs p) /\
  rs = flat_map (records fs) paths.
Proof.
  revert rs; induction paths as [|p rest IH]; intros rs.
  - simpl. split.
    + intros [= <-]. split; [intros p []|reflexivity].
    + intros [_ ->]. reflexivity.
  - cbn [Load_model flat_map].
    destruct (exists_ fs p) as [[|]|e] eqn:He; cbn [bind].
    + destruct (existsb short_line (file_lines fs p)) eqn:E.
      * split; [discriminate|]. intros [H _].
        destruct (H p (or_introl eq_refl)) as [_ Hn]. exfalso. apply Hn.
        apply has_short_line_existsb. exact E.
      * split.
        -- destruct (Load_model fs rest) as [rs'|]; cbn [bind];
             [|discriminate].
           intros [= <-]. destruct (proj1 (IH rs') eq_refl) as [Hall ->].
           split; [|reflexivity]. intros q [<-|Hq]; [|auto].
           split; [assumption|].
           intros Hs. apply has_short_line_existsb in Hs. congruence.
        -- intros [Hall ->].
           rewrite (proj2 (IH (flat_map (records fs) rest))); [reflexivity|].
           split; [|reflexivity]. intros q Hq. apply Hall. right. assumption.
    + split; [discriminate|]. intros [H _].
      destruct (H p (or_introl eq_refl)) as [Hm _]. congruence.
    + split; [discriminate|]. intros [H _].
      destruct (H p (or_introl eq_refl)) as [Hm _]. congruence.
Qed.

End Load_model_facts.

Lemma data_lines_header h body :
  ~ In newline h -> data_lines (h ++ newline :: body) = text_lines body.
Proof.
  intros Hh. unfold data_lines, text_lines.
  rewrite fields_app, fields_no_delimiter by assumption. simpl app.
  pose proof (fields_not_nil newline body) as Hne.
  rewrite last_cons_nonempty by assumption.
  destruct (last (fields newline body) []); [|reflexivity].
  rewrite removelast_cons_nonempty by assumption. reflexivity.
Qed.

Lemma token_count_nil : token_count [] = 1.
Proof. reflexivity. Qed.

Lemma data_lines_blank_end body :
  In newline body -> In [] (data_lines (body ++ [newline; newline])).
Proof.
  intros Hin. apply in_split in Hin. destruct Hin as (a & b & ->).
  unfold data_lines, text_lines.
  rewrite <- app_assoc, <- app_comm_cons.
  rewrite fields_app. change (b ++ [newline; newline])
    with (b ++ newline :: [newline]).
  rewrite fields_app. simpl (fields newline [newline]).
  pose proof (fields_not_nil newline a) as Ha.
  pose proof (fields_not_nil newline b) as Hb.
  destruct (fields newline a) as [|fa la]; [contradiction|].
  destruct (fields newline b) as [|fb lb]; [contradiction|].
  assert (Hlast : last ((fa :: la) ++ (fb :: lb) ++ [[]; []]) [] = []).
  { rewrite !app_assoc. change [[]; []] with ([[]] ++ [@nil ascii]).
    rewrite !app_assoc. apply last_last. }
  rewrite Hlast.
  assert (Hrm : removelast ((fa :: la) ++ (fb :: lb) ++ [[]; []])
                = (fa :: la) ++ (fb :: lb) ++ [[]]).
  { rewrite !app_assoc. change [[]; []] with ([[]] ++ [@nil ascii]).
    rewrite !app_assoc. rewrite removelast_last. reflexivity. }
  rewrite Hrm. simpl. apply in_or_app. right. right.
  apply in_or_app. right. left. reflexivity.
Qed.

(** X1: [Load] computes the model: the loops over paths and lines, with
    their accumulator and early exits, return what the function of the
    files' data lines returns, exception included. *)
Theorem Load_refines_model {T : Type} {version : Version T}
    (fs : filesystem) (paths : list path) :
  Load (T:=T) fs paths = Load_model fs paths.
Proof. apply Load_is_model. Qed.

(** X2: [Load] returns exactly when every path exists and no file has a
    data line with too few tokens, and what it returns is then the
    concatenation of the files' records. *)
Theorem Load_returns_iff {T : Type} {version : Version T}
    (fs : filesystem) (paths : list path) (rs : list T) :
  Load fs paths = Return rs <->
  (forall p, In p paths ->
     exists_ fs p = Return true /\ ~ has_short_line (T:=T) fs p) /\
  rs = flat_map (records fs) paths.
Proof. rewrite Load_is_model. apply Load_model_returns. Qed.

(** X3: what [Load] throws is its own path error, its own element-count
    error, or the error of [exists] for a path whose status cannot be
    determined.  The exceptions of the two helpers never leave it: it
    asks [exists] before it calls [ReadAllText] and compares the sizes
    before it calls [ToArray], so neither "Invalid file path" nor the
    size mismatch of [ToArray] can be what [Load] throws (on a file
    system that stays as it is during the call). *)
Theorem Load_exceptions {T : Type} {version : Version T}
    (fs : filesystem) (paths : list path) (e : exception) :
  Load (T:=T) fs paths = Throw e ->
  (e = Path_not_valid \/ e = Element_count_mismatch \/
   e = filesystem_error) /\
  e <> Invalid_file_path /\ e <> Array_size_mismatch.
Proof.
  unfold Load. intros H.
  destruct (Load_paths_outcome fs paths []) as [[rs Hr]|[Hr|[Hr|Hr]]];
    rewrite Hr in H; [discriminate| | |]; injection H as <-;
    (split; [auto|split; discriminate]).
Qed.

Lemma Load_exceptions_witness :
  Load (T:=V1.t) example_fs ["a.csv"; "sealed/a.csv"]%string
  = Throw filesystem_error /\
  (filesystem_error = Path_not_valid \/
   filesystem_error = Element_count_mismatch \/
   filesystem_error = filesystem_error) /\
  filesystem_error <> Invalid_file_path /\
  filesystem_error <> Array_size_mismatch.
Proof.
  assert (H : Load (T:=V1.t) example_fs ["a.csv"; "sealed/a.csv"]%string
              = Throw filesystem_error) by (vm_compute; reflexivity).
  split; [exact H|].
  exact (Load_exceptions example_fs ["a.csv"; "sealed/a.csv"]%string
           filesystem_error H).
Defined.

(** X4: loading [pre ++ post] is loading [pre], then [post], and
    appending the results; an exception of [pre] comes first. *)
Theorem Load_app {T : Type} {version : Version T}
    (fs : filesystem) (pre post : list path) :
  Load (T:=T) fs (pre ++ post) =
  (r1 <- Load fs pre ;; r2 <- Load fs post ;; Return (r1 ++ r2)).
Proof. rewrite !Load_is_model. apply Load_model_app. Qed.

(** X5: a file that exists but cannot be opened is passed over in
    silence: taking it out of the list changes nothing. *)
Theorem Load_skips_unreadable {T : Type} {version : Version T}
    (fs : filesystem) (pre post : list path) (p : path) :
  fs p = Unreadable ->
  Load (T:=T) fs (pre ++ p :: post) = Load fs (pre ++ post).
Proof.
  intros H. rewrite !Load_is_model, !Load_model_app.
  rewrite Load_model_skip;
    [reflexivity| |]; unfold exists_, file_lines; rewrite H; reflexivity.
Qed.

Lemma Load_skips_unreadable_witness :
  example_fs "locked.csv"%string = Unreadable /\
  Load (T:=V1.t) example_fs
    (["a.csv"%string] ++ "locked.csv"%string :: ["b.csv"%string])
  = Load example_fs (["a.csv"%string] ++ ["b.csv"%string]).
Proof.
  split; [reflexivity|].
  exact (Load_skips_unreadable (T:=V1.t) example_fs ["a.csv"%string]
           ["b.csv"%string] "locked.csv"%string eq_refl).
Defined.

(** X6: an empty data line has one token, so for a version of two
    columns or more it aborts the load like any short line; a file
    ending in two newlines has such a line. *)
Theorem Load_blank_line_aborts {T : Type} {version : Version T}
    (fs : filesystem) (p : path) (rest : list path) (text : chars) :
  fs p = File text ->
  2 <= s_ElementCount (T:=T) ->
  In [] (data_lines text) \/
    (exists body, In newline body /\ text = body ++ [newline; newline]) ->
  Load (T:=T) fs (p :: rest) = Throw Element_count_mismatch.
Proof.
  intros Hf Hn Hblank.
  assert (Hin : In [] (data_lines text)).
  { destruct Hblank as [H|(body & Hb & ->)]; [exact H|].
    apply data_lines_blank_end. exact Hb. }
  unfold Load. apply Load_paths_short. exists text. split; [exact Hf|].
  apply Exists_exists. exists []. split; [exact Hin|].
  rewrite token_count_nil. lia.
Qed.

Lemma Load_blank_line_aborts_witness :
  (fun p => if String.eqb p "blank.csv" then
              File ((header_V1 ++ newline :: row_sun) ++ [newline; newline])
            else Missing) "blank.csv"%string
    = File ((header_V1 ++ newline :: row_sun) ++ [newline; newline]) /\
  2 <= s_ElementCount (T:=V1.t) /\
  Load (T:=V1.t)
    (fun p => if String.eqb p "blank.csv" then
                File ((header_V1 ++ newline :: row_sun) ++ [newline; newline])
              else Missing) ["blank.csv"%string]
  = Throw Element_count_mismatch.
Proof.
  assert (Hn : 2 <= s_ElementCount (T:=V1.t)) by (vm_compute; lia).
  split; [reflexivity|]. split; [exact Hn|].
  refine (Load_blank_line_aborts (T:=V1.t) _ "blank.csv"%string []
            ((header_V1 ++ newline :: row_sun) ++ [newline; newline])
            eq_refl Hn _).
  right. exists (header_V1 ++ newline :: row_sun). split; [|reflexivity].
  apply in_or_app. right. left. reflexivity.
Defined.

(** X7: the header line is taken off unread: two files that differ in
    their first line only load alike, whatever that line holds. *)
Theorem Load_ignores_header {T : Type} {version : Version T}
    (fs fs' : filesystem) (p p' : path) (h h' body : chars) :
  ~ In newline h -> ~ In newline h' ->
  fs p = File (h ++ newline :: body) ->
  fs' p' = File (h' ++ newline :: body) ->
  Load (T:=T) fs [p] = Load fs' [p'].
Proof.
  intros Hh Hh' Hf Hf'. rewrite !Load_is_model. cbn [Load_model].
  unfold exists_, records, file_lines. rewrite Hf, Hf'.
  rewrite !data_lines_header by assumption. reflexivity.
Qed.

Lemma Load_ignores_header_witness :
  ~ In newline header_V1 /\ ~ In newline (L "no,header;at all") /\
  example_fs "a.csv"%string = File (header_V1 ++ newline :: row_sun ++ [newline]) /\
  (fun _ : path => File (L "no,header;at all" ++ newline :: row_sun ++ [newline]))
    "z"%string = File (L "no,header;at all" ++ newline :: row_sun ++ [newline]) /\
  Load (T:=V1.t) example_fs ["a.csv"%string] =
  Load (fun _ : path =>
          File (L "no,header;at all" ++ newline :: row_sun ++ [newline]))
       ["z"%string].
Proof.
  assert (H1 : ~ In newline header_V1) by (vm_compute; intuition discriminate).
  assert (H2 : ~ In newline (L "no,header;at all"))
    by (vm_compute; intuition discriminate).
  split; [exact H1|]. split; [exact H2|].
  split; [reflexivity|]. split; [reflexivity|].
  exact (Load_ignores_header (T:=V1.t) example_fs _ "a.csv"%string "z"%string
           header_V1 (L "no,header;at all") (row_sun ++ [newline])
           H1 H2 eq_refl eq_refl).
Defined.

(** * Further properties of [TryParse] *)

Lemma span_prefix p ws s :
  forallb p ws = true ->
  span p (ws ++ s) = (ws ++ fst (span p s), snd (span p s)).
Proof.
  induction ws as [|c t IH]; simpl; intros H.
  - destruct (span p s); reflexivity.
  - apply andb_prop in H. destruct H as [Hc Ht].
    rewrite Hc, IH by assumption. reflexivity.
Qed.

Lemma scan_int_space ws s :
  forallb isspace ws = true ->
  scan_int (ws ++ s) =
  let '(neg, m, e) := scan_int s in
  (neg, m, match e with 0 => 0 | S _ => length ws + e end).
Proof.
  intros H. unfold scan_int. rewrite span_prefix by assumption.
  destruct (span isspace s) as [a s1]. simpl fst; simpl snd.
  destruct (take_sign s1) as [[neg s2] k].
  destruct (span isdigit s2) as [ds r].
  destruct ds as [|d ds]; [reflexivity|].
  replace (length a + k + length (d :: ds))
    with (S (length a + k + length ds)) by (simpl; lia).
  f_equal. rewrite length_app. simpl. lia.
Qed.

Lemma TryParse_return_pos {A : Type} (r : A) (e : nat) :
  TryParse_return r (Some (S e)) = Some r.
Proof. reflexivity. Qed.

Lemma convert_int_space T ws s :
  forallb isspace ws = true ->
  convert_int T (ws ++ s) =
  (fst (convert_int T s),
   match snd (convert_int T s) with 0 => 0 | S _ => length ws + snd (convert_int T s) end).
Proof.
  intros H.
  destruct T; unfold convert_int, strtoll, strtoull, strtol, strtoul;
    rewrite scan_int_space by assumption;
    destruct (scan_int s) as [[neg m] e]; reflexivity.
Qed.

(** A sign and digits in front of a comma or the line's end. *)
Lemma scan_int_signed sg ds tail :
  is_sign_prefix sg -> ds <> [] -> forallb isdigit ds = true ->
  token_tail tail ->
  scan_int ((sg ++ ds) ++ tail) =
  (if list_eq_dec ascii_dec sg (L "-") then true else false,
   digits_val 10 ds, length sg + length ds).
Proof.
  intros Hsg Hne Hds Ht. rewrite scan_int_token by assumption.
  destruct ds as [|d ds]; [contradiction|].
  simpl in Hds. apply andb_prop in Hds. destruct Hds as [Hd Hds].
  assert (Hnsp : isspace d = false).
  { destruct d as [[] [] [] [] [] [] [] []]; try reflexivity;
      discriminate Hd. }
  assert (Hnm : Ascii.eqb d "-" = false /\ Ascii.eqb d "+" = false).
  { destruct d as [[] [] [] [] [] [] [] []]; split; try reflexivity;
      discriminate Hd. }
  destruct Hnm as [Hm Hp].
  assert (Hall : forallb isdigit (d :: ds) = true)
    by (cbn [forallb]; rewrite Hd, Hds; reflexivity).
  assert (Hsp : span isspace (sg ++ d :: ds) = ([], sg ++ d :: ds)).
  { destruct Hsg as [->|[->| ->]]; [|reflexivity|reflexivity].
    cbn [app span]. rewrite Hnsp. reflexivity. }
  assert (Hts : take_sign (sg ++ d :: ds) =
                (if list_eq_dec ascii_dec sg (L "-") then true else false,
                 d :: ds, length sg)).
  { destruct Hsg as [->|[->| ->]]; [|reflexivity|reflexivity].
    unfold take_sign. cbn [app]. rewrite Hm, Hp. reflexivity. }
  unfold scan_int. rewrite Hsp, Hts, span_all by assumption. reflexivity.
Qed.

(** Evaluate the powers of two that bound the C types. *)
Ltac eval_bounds :=
  unfold ULONG_MAX, LONG_MAX, LONG_MIN in *;
  change (2 ^ 64)%Z with 18446744073709551616%Z in *;
  change (2 ^ 63)%Z with 9223372036854775808%Z in *;
  change (2 ^ 32)%Z with 4294967296%Z in *;
  change (2 ^ 31)%Z with 2147483648%Z in *;
  change (2 ^ 16)%Z with 65536%Z in *;
  change (2 ^ 15)%Z with 32768%Z in *.

Lemma strtoul_range s : (0 <= fst (strtoul s) < 2 ^ 64)%Z.
Proof.
  unfold strtoul. destruct (scan_int s) as [[neg m] e]. simpl fst.
  destruct (Z.ltb_spec ULONG_MAX (Z.of_N m)); [eval_bounds; lia|].
  destruct neg; [apply Z.mod_pos_bound; reflexivity|eval_bounds; lia].
Qed.

Lemma strtol_clamp s :
  fst (strtol s) =
  let '(neg, m, _) := scan_int s in
  clamp_long (if neg then - Z.of_N m else Z.of_N m).
Proof.
  unfold strtol, clamp_long. destruct (scan_int s) as [[neg m] e]. simpl fst.
  set (v := (if neg then - Z.of_N m else Z.of_N m)%Z).
  destruct (Z.ltb_spec LONG_MAX v); [eval_bounds; lia|].
  destruct (Z.ltb_spec v LONG_MIN); eval_bounds; lia.
Qed.

Lemma clamp_long_range z : (- 2 ^ 63 <= clamp_long z < 2 ^ 63)%Z.
Proof. unfold clamp_long. eval_bounds. lia. Qed.

Lemma to_signed_range w z :
  (0 < w)%Z -> (- 2 ^ (w - 1) <= to_signed w z < 2 ^ (w - 1))%Z.
Proof.
  intros Hw. unfold to_signed.
  assert (H2 : (2 ^ w = 2 * 2 ^ (w - 1))%Z).
  { rewrite <- Z.pow_succ_r by lia. f_equal. lia. }
  assert (Hp : (0 < 2 ^ (w - 1))%Z) by (apply Z.pow_pos_nonneg; lia).
  pose proof (Z.mod_pos_bound (z + 2 ^ (w - 1)) (2 ^ w)) as Hb. lia.
Qed.

Lemma to_signed_small w z :
  (0 < w)%Z -> (- 2 ^ (w - 1) <= z < 2 ^ (w - 1))%Z -> to_signed w z = z.
Proof.
  intros Hw Hz. unfold to_signed.
  assert (H2 : (2 ^ w = 2 * 2 ^ (w - 1))%Z).
  { rewrite <- Z.pow_succ_r by lia. f_equal. lia. }
  rewrite Z.mod_small by lia. lia.
Qed.

Lemma width_pos T : (0 < width T)%Z.
Proof. destruct T; reflexivity. Qed.

Lemma width_le_64 T : (2 ^ width T <= 2 ^ 64)%Z.
Proof. destruct T; simpl width; eval_bounds; lia. Qed.

(** X8: a present integer field lies in the range of its type. *)
Theorem TryParse_int_in_range (T : int_kind) (_str : string_view) (r : Z) :
  TryParse_int T _str = Some r -> in_range T r.
Proof.
  unfold TryParse_int.
  destruct (convert_int T (sv_data _str)) as [v e] eqn:E.
  destruct e as [|e]; [discriminate|]. rewrite TryParse_return_pos.
  intros [= <-]. unfold in_range.
  pose proof (strtoul_range (sv_data _str)) as Hu.
  pose proof (strtol_clamp (sv_data _str)) as Hl.
  destruct (scan_int (sv_data _str)) as [[neg m] e'].
  pose proof (clamp_long_range (if neg then - Z.of_N m else Z.of_N m)) as Hc.
  rewrite <- Hl in Hc. clear Hl.
  destruct T; unfold convert_int, strtoll, strtoull in E; simpl;
    try (destruct (strtol (sv_data _str)) as [x y]; simpl in *;
         injection E as <- _);
    try (destruct (strtoul (sv_data _str)) as [x y]; simpl in *;
         injection E as <- _);
    try (apply (to_signed_range 32); reflexivity);
    try (apply (to_signed_range 16); reflexivity);
    try (apply Z.mod_pos_bound; reflexivity);
    assumption.
Qed.

Lemma TryParse_int_in_range_witness :
  TryParse_int T_short (sv_token (L "-40000") (L ",x")) = Some 25536%Z /\
  in_range T_short 25536.
Proof.
  assert (H : TryParse_int T_short (sv_token (L "-40000") (L ",x"))
              = Some 25536%Z) by (vm_compute; reflexivity).
  split; [exact H|].
  exact (TryParse_int_in_range T_short (sv_token (L "-40000") (L ",x"))
           25536 H).
Defined.

Lemma TryParse_int_signed_token T sg ds tail :
  is_sign_prefix sg -> ds <> [] -> forallb isdigit ds = true ->
  token_tail tail ->
  TryParse_int T (sv_token (sg ++ ds) tail) =
  Some (fst (convert_int T ((sg ++ ds) ++ tail))).
Proof.
  intros Hsg Hne Hds Ht. unfold TryParse_int, sv_token. simpl sv_data.
  pose proof (convert_int_length T ((sg ++ ds) ++ tail)) as Hl.
  rewrite scan_int_signed in Hl by assumption. simpl snd in Hl.
  destruct (convert_int T ((sg ++ ds) ++ tail)) as [v e]. simpl in *.
  subst e. destruct ds; [contradiction|].
  simpl length. rewrite Nat.add_succ_r. reflexivity.
Qed.

Lemma strtoul_signed sg ds tail :
  is_sign_prefix sg -> ds <> [] -> forallb isdigit ds = true ->
  token_tail tail ->
  fst (strtoul ((sg ++ ds) ++ tail)) =
  (let m := Z.of_N (digits_val 10 ds) in
   if ULONG_MAX <? m then ULONG_MAX
   else if list_eq_dec ascii_dec sg (L "-") then (- m) mod 2 ^ 64 else m)%Z.
Proof.
  intros Hsg Hne Hds Ht. unfold strtoul.
  rewrite scan_int_signed by assumption. cbn [fst].
  destruct (list_eq_dec ascii_dec sg (L "-")); reflexivity.
Qed.

Lemma strtol_signed sg ds tail :
  is_sign_prefix sg -> ds <> [] -> forallb isdigit ds = true ->
  token_tail tail ->
  fst (strtol ((sg ++ ds) ++ tail)) = clamp_long (signed_value sg ds).
Proof.
  intros Hsg Hne Hds Ht. rewrite strtol_clamp.
  rewrite scan_int_signed by assumption. unfold signed_value.
  destruct (list_eq_dec ascii_dec sg (L "-")); reflexivity.
Qed.

Lemma convert_int_value T s :
  fst (convert_int T s) =
  match T with
  | T_int => to_signed 32 (fst (strtol s))
  | T_short => to_signed 16 (fst (strtol s))
  | T_long | T_long_long => fst (strtol s)
  | T_unsigned_int => to_unsigned 32 (fst (strtoul s))
  | T_unsigned_short => to_unsigned 16 (fst (strtoul s))
  | T_unsigned_long | T_unsigned_long_long => fst (strtoul s)
  end.
Proof.
  destruct T; unfold convert_int, strtoll, strtoull;
    try destruct (strtol s); try destruct (strtoul s); reflexivity.
Qed.

(** X9: a token made of an optional sign and digits whose integer fits
    the field's type parses to exactly that integer, for every integer
    kind. *)
Theorem TryParse_int_exact (T : int_kind) (sg ds tail : chars) :
  is_sign_prefix sg -> ds <> [] -> forallb isdigit ds = true ->
  token_tail tail ->
  in_range T (signed_value sg ds) ->
  TryParse_int T (sv_token (sg ++ ds) tail) = Some (signed_value sg ds).
Proof.
  intros Hsg Hne Hds Ht Hr.
  rewrite TryParse_int_signed_token by assumption. f_equal.
  rewrite convert_int_value.
  pose proof (strtol_signed sg ds tail Hsg Hne Hds Ht) as Hl.
  pose proof (strtoul_signed sg ds tail Hsg Hne Hds Ht) as Hu.
  cbv zeta in Hu. unfold in_range in Hr.
  assert (Hm : (0 <= Z.of_N (digits_val 10 ds))%Z) by lia.
  destruct (is_unsigned T) eqn:Eu.
  - (* unsigned: the value is the magnitude, or zero written with a minus *)
    pose proof (width_le_64 T) as Hw.
    assert (Hv : fst (strtoul ((sg ++ ds) ++ tail)) = signed_value sg ds).
    { rewrite Hu. unfold signed_value in *.
      destruct (Z.ltb_spec ULONG_MAX (Z.of_N (digits_val 10 ds)));
        destruct (list_eq_dec ascii_dec sg (L "-")); eval_bounds; try lia.
      replace (Z.of_N (digits_val 10 ds)) with 0%Z by lia. reflexivity. }
    destruct T; try discriminate Eu; rewrite Hv; unfold to_unsigned;
      try reflexivity; apply Z.mod_small; simpl width in Hr; lia.
  - assert (Hv : fst (strtol ((sg ++ ds) ++ tail)) = signed_value sg ds).
    { rewrite Hl. unfold clamp_long.
      assert (- 2 ^ 63 <= signed_value sg ds < 2 ^ 63)%Z
        by (destruct T; try discriminate Eu; simpl width in Hr;
            eval_bounds; simpl in Hr; lia).
      eval_bounds. lia. }
    destruct T; try discriminate Eu; rewrite Hv; try reflexivity;
      apply to_signed_small; try reflexivity; exact Hr.
Qed.

Lemma TryParse_int_exact_witness :
  is_sign_prefix (L "-") /\ L "32768" <> [] /\
  forallb isdigit (L "32768") = true /\ token_tail [] /\
  in_range T_short (signed_value (L "-") (L "32768")) /\
  TryParse_int T_short (sv_token (L "-" ++ L "32768") [])
    = Some (signed_value (L "-") (L "32768")).
Proof.
  assert (H1 : is_sign_prefix (L "-")) by (right; right; reflexivity).
  assert (H2 : L "32768" <> []) by discriminate.
  assert (H3 : token_tail []) by (left; reflexivity).
  assert (H4 : in_range T_short (signed_value (L "-") (L "32768")))
    by (vm_compute; split; [discriminate|reflexivity]).
  repeat (split; [first [assumption | reflexivity]|]).
  exact (TryParse_int_exact T_short (L "-") (L "32768") [] H1 H2 eq_refl H3 H4).
Defined.

(** X10: for the signed kinds a sign and digits parse to their integer
    saturated at the bounds of [long] and then wrapped to the width of
    the kind: [int] and [short] wrap where [long] saturates. *)
Theorem TryParse_int_signed_wraps (T : int_kind) (sg ds tail : chars) :
  is_unsigned T = false ->
  is_sign_prefix sg -> ds <> [] -> forallb isdigit ds = true ->
  token_tail tail ->
  TryParse_int T (sv_token (sg ++ ds) tail) =
    Some (to_signed (width T) (clamp_long (signed_value sg ds))) /\
  (width T = 64%Z ->
   TryParse_int T (sv_token (sg ++ ds) tail) =
     Some (clamp_long (signed_value sg ds))).
Proof.
  intros Hu Hsg Hne Hds Ht.
  rewrite TryParse_int_signed_token by assumption.
  rewrite convert_int_value, strtol_signed by assumption.
  pose proof (clamp_long_range (signed_value sg ds)) as Hc.
  assert (H64 : to_signed 64 (clamp_long (signed_value sg ds))
                = clamp_long (signed_value sg ds))
    by (apply to_signed_small; [reflexivity|exact Hc]).
  destruct T; try discriminate Hu; simpl width; rewrite ?H64;
    (split; [reflexivity|]); intros E; try discriminate E; reflexivity.
Qed.

Lemma TryParse_int_signed_wraps_witness :
  is_unsigned T_int = false /\ is_sign_prefix [] /\ L "4294967297" <> [] /\
  forallb isdigit (L "4294967297") = true /\ token_tail (L ",") /\
  TryParse_int T_int (sv_token (L "4294967297") (L ",")) = Some 1%Z.
Proof.
  assert (H1 : is_sign_prefix []) by (left; reflexivity).
  assert (H2 : L "4294967297" <> []) by discriminate.
  assert (H3 : token_tail (L ",")) by (right; eexists; reflexivity).
  repeat (split; [first [assumption | reflexivity]|]).
  exact (proj1 (TryParse_int_signed_wraps T_int [] (L "4294967297") (L ",")
                  eq_refl H1 H2 eq_refl H3)).
Defined.

(** X11: for the unsigned kinds, digits without a minus sign parse to
    their value saturated at [ULONG_MAX] and then reduced modulo
    [2^w]. *)
Theorem TryParse_unsigned_digits (T : int_kind) (sg ds tail : chars) :
  is_unsigned T = true ->
  sg = [] \/ sg = L "+" ->
  ds <> [] -> forallb isdigit ds = true -> token_tail tail ->
  TryParse_int T (sv_token (sg ++ ds) tail) =
    Some (Z.min ULONG_MAX (Z.of_N (digits_val 10 ds)) mod 2 ^ width T)%Z.
Proof.
  intros Hu Hsg Hne Hds Ht.
  assert (Hsg' : is_sign_prefix sg) by (destruct Hsg; [left|right; left]; auto).
  rewrite TryParse_int_signed_token by assumption. f_equal.
  rewrite convert_int_value, strtoul_signed by assumption. cbv zeta.
  assert (Hn : (if list_eq_dec ascii_dec sg (L "-") then true else false)
               = false).
  { destruct Hsg as [-> | ->]; reflexivity. }
  destruct (list_eq_dec ascii_dec sg (L "-")); [discriminate Hn|].
  set (m := Z.of_N (digits_val 10 ds)).
  assert (Hm : (0 <= m)%Z) by (unfold m; lia).
  assert (Hv : (if ULONG_MAX <? m then ULONG_MAX else m)%Z
               = Z.min ULONG_MAX m).
  { destruct (Z.ltb_spec ULONG_MAX m); lia. }
  rewrite Hv.
  destruct T; try discriminate Hu; unfold to_unsigned; simpl width;
    try reflexivity; symmetry; apply Z.mod_small; eval_bounds; lia.
Qed.

Lemma TryParse_unsigned_digits_witness :
  is_unsigned T_unsigned_short = true /\
  (@nil ascii = [] \/ [] = L "+") /\
  L "65537" <> [] /\ forallb isdigit (L "65537") = true /\ token_tail [] /\
  TryParse_int T_unsigned_short (sv_token (L "65537") []) = Some 1%Z.
Proof.
  assert (H1 : @nil ascii = [] \/ [] = L "+") by (left; reflexivity).
  assert (H2 : L "65537" <> []) by discriminate.
  assert (H3 : token_tail []) by (left; reflexivity).
  repeat (split; [first [assumption | reflexivity]|]).
  exact (TryParse_unsigned_digits T_unsigned_short [] (L "65537") []
           eq_refl H1 H2 eq_refl H3).
Defined.

(** ** The floating conversions of a delimited token see the token only *)

Lemma prefix_ci_token w s tail :
  token_tail tail ->
  (forall x, In x w -> Ascii.eqb "," x = false) ->
  prefix_ci w (s ++ tail) = prefix_ci w s.
Proof.
  intros Ht. revert s; induction w as [|x w IH]; intros s Hw;
    [destruct s; destruct tail; reflexivity|].
  destruct s as [|c s]; cbn [app prefix_ci].
  - destruct Ht as [->|[r ->]]; [reflexivity|]. unfold comma.
    cbn [prefix_ci]. change (tolower ",") with ","%char.
    rewrite Hw by (left; reflexivity). reflexivity.
  - rewrite IH by (intros y Hy; apply Hw; right; assumption). reflexivity.
Qed.

Lemma prefix_ci_length w s : prefix_ci w s = true -> length w <= length s.
Proof.
  revert s; induction w as [|x w IH]; intros s H; simpl; [lia|].
  destruct s as [|c s]; simpl in H; [discriminate|].
  apply andb_prop in H. destruct H as [_ H]. apply IH in H. simpl. lia.
Qed.

Lemma skipn_app_le (n : nat) (s tail : chars) :
  n <= length s -> skipn n (s ++ tail) = skipn n s ++ tail.
Proof.
  intros H. rewrite skipn_app.
  replace (n - length s) with 0 by lia. reflexivity.
Qed.

Lemma take_sign_token s tail :
  token_tail tail ->
  take_sign (s ++ tail) =
  let '(neg, s2, k) := take_sign s in (neg, s2 ++ tail, k).
Proof.
  intros Ht. destruct s as [|c t]; simpl.
  - destruct Ht as [->|[r ->]]; reflexivity.
  - destruct (Ascii.eqb c "-"); [reflexivity|].
    destruct (Ascii.eqb c "+"); reflexivity.
Qed.

Lemma take_sign_length s :
  let '(neg, s2, k) := take_sign s in length s = k + length s2.
Proof.
  destruct s as [|c t]; simpl; [reflexivity|].
  destruct (Ascii.eqb c "-"); [reflexivity|].
  destruct (Ascii.eqb c "+"); reflexivity.
Qed.

Lemma span_token (p : ascii -> bool) s tail :
  p comma = false -> token_tail tail ->
  span p (s ++ tail) = (fst (span p s), snd (span p s) ++ tail).
Proof.
  intros Hp Ht. apply span_app_stop, token_tail_stop; assumption.
Qed.

Lemma scan_mantissa_token isd s tail :
  isd comma = false -> token_tail tail ->
  scan_mantissa isd (s ++ tail) = scan_mantissa isd s.
Proof.
  intros Hp Ht. unfold scan_mantissa. rewrite span_token by assumption.
  destruct (span isd s) as [ip s1]. cbn [fst snd].
  destruct s1 as [|c t]; cbn [app]; cbv iota.
  - destruct Ht as [->|[r ->]]; reflexivity.
  - destruct (Ascii.eqb c "."); [|reflexivity].
    rewrite span_token by assumption. destruct (span isd t). reflexivity.
Qed.

Lemma scan_mantissa_length isd s :
  snd (scan_mantissa isd s) <= length s.
Proof.
  unfold scan_mantissa. pose proof (span_length isd s) as H.
  destruct (span isd s) as [ip s1]. simpl in H.
  destruct s1 as [|c t]; simpl; [lia|].
  destruct (Ascii.eqb c "."); simpl in *; [|lia].
  pose proof (span_length isd t) as H'. destruct (span isd t) as [fp r].
  simpl in *. lia.
Qed.

Lemma scan_exponent_token (m : ascii) s tail :
  Ascii.eqb "," m = false -> token_tail tail ->
  scan_exponent m (s ++ tail) = scan_exponent m s.
Proof.
  intros Hm Ht. destruct s as [|c t]; simpl app.
  - destruct Ht as [->|[r ->]]; [reflexivity|]. unfold scan_exponent, comma.
    change (tolower ",") with ","%char. rewrite Hm. reflexivity.
  - unfold scan_exponent. destruct (Ascii.eqb (tolower c) m); [|reflexivity].
    rewrite take_sign_token by assumption.
    destruct (take_sign t) as [[neg t'] k].
    rewrite span_token by (reflexivity || assumption).
    destruct (span isdigit t'). reflexivity.
Qed.

Lemma scan_dec_token neg s tail :
  token_tail tail -> scan_dec neg (s ++ tail) = scan_dec neg s.
Proof.
  intros Ht. unfold scan_dec.
  rewrite scan_mantissa_token by (reflexivity || assumption).
  pose proof (scan_mantissa_length isdigit s) as Hl.
  destruct (scan_mantissa isdigit s) as [[ip fp] n]. simpl in Hl.
  destruct (ip ++ fp); [reflexivity|].
  rewrite skipn_app_le, scan_exponent_token by (reflexivity || assumption).
  reflexivity.
Qed.

Lemma scan_hex_token neg s tail :
  token_tail tail -> scan_hex neg (s ++ tail) = scan_hex neg s.
Proof.
  intros Ht. unfold scan_hex.
  rewrite prefix_ci_token
    by (try assumption; intros x [<-|[<-|[]]]; reflexivity).
  destruct (prefix_ci (L "0x") s) eqn:E; [|reflexivity].
  apply prefix_ci_length in E. simpl in E.
  rewrite skipn_app_le by assumption.
  rewrite scan_mantissa_token by (reflexivity || assumption).
  pose proof (scan_mantissa_length isxdigit (skipn 2 s)) as Hl.
  rewrite length_skipn in Hl.
  destruct (scan_mantissa isxdigit (skipn 2 s)) as [[ip fp] n]. simpl in Hl.
  destruct (ip ++ fp); [reflexivity|].
  rewrite skipn_app_le, scan_exponent_token
    by (reflexivity || assumption || lia).
  reflexivity.
Qed.

Lemma scan_special_token neg s tail :
  token_tail tail -> scan_special neg (s ++ tail) = scan_special neg s.
Proof.
  intros Ht. unfold scan_special.
  rewrite !prefix_ci_token
    by (try assumption; intros x Hx; simpl in Hx;
        repeat (destruct Hx as [<-|Hx]; [reflexivity|]); destruct Hx).
  destruct (prefix_ci (L "infinity") s); [reflexivity|].
  destruct (prefix_ci (L "inf") s); [reflexivity|].
  destruct (prefix_ci (L "nan") s) eqn:E; [|reflexivity].
  apply prefix_ci_length in E. simpl in E.
  rewrite skipn_app_le by assumption.
  destruct (skipn 3 s) as [|c t]; cbn [app]; cbv iota.
  - destruct Ht as [->|[r ->]]; reflexivity.
  - destruct (Ascii.eqb c "("); [|reflexivity].
    rewrite span_token by (reflexivity || assumption).
    destruct (span isnchar t) as [ns r]. cbn [fst snd].
    destruct r as [|c' r]; cbn [app]; cbv iota; [|reflexivity].
    destruct Ht as [->|[r' ->]]; reflexivity.
Qed.

Lemma scan_fp_token tok tail :
  token_tail tail -> scan_fp (tok ++ tail) = scan_fp tok.
Proof.
  intros Ht. unfold scan_fp.
  rewrite span_token by (reflexivity || assumption).
  destruct (span isspace tok) as [ws s1]. simpl fst; simpl snd.
  rewrite take_sign_token by assumption.
  destruct (take_sign s1) as [[neg s2] k].
  rewrite scan_hex_token, scan_dec_token, scan_special_token by assumption.
  reflexivity.
Qed.

Lemma TryParse_int_token T tok tail :
  token_tail tail ->
  TryParse_int T (sv_token tok tail) = TryParse_int T (sv_of_string tok).
Proof.
  intros Ht. unfold TryParse_int, sv_token, sv_of_string. simpl sv_data.
  replace (convert_int T (tok ++ tail)) with (convert_int T tok);
    [reflexivity|].
  destruct T; unfold convert_int, strtoll, strtoull, strtol, strtoul;
    rewrite scan_int_token by assumption; reflexivity.
Qed.

Lemma TryParse_fp_token T tok tail :
  token_tail tail ->
  TryParse_fp T (sv_token tok tail) = TryParse_fp T (sv_of_string tok).
Proof.
  intros Ht. unfold TryParse_fp, sv_token, sv_of_string. simpl sv_data.
  rewrite !convert_fp_scan, scan_fp_token by assumption. reflexivity.
Qed.

(** X12: a numeric field depends on the characters of its token only:
    the conversions read on past the token's end, but in a line they
    stop at the comma or at the end of the line. *)
Theorem TryParse_reads_token_only (Ti : int_kind) (Tf : fp_kind)
    (tok tail : chars) :
  token_tail tail ->
  TryParse_int Ti (sv_token tok tail) = TryParse_int Ti (sv_of_string tok) /\
  TryParse_fp Tf (sv_token tok tail) = TryParse_fp Tf (sv_of_string tok).
Proof.
  intros Ht. split;
    [apply TryParse_int_token|apply TryParse_fp_token]; assumption.
Qed.

Lemma TryParse_reads_token_only_witness :
  token_tail (L ",5e3") /\
  TryParse_int T_unsigned_long (sv_token (L "12") (L ",5e3"))
    = TryParse_int T_unsigned_long (sv_of_string (L "12")) /\
  TryParse_fp T_double (sv_token (L "1e") (L ",5e3"))
    = TryParse_fp T_double (sv_of_string (L "1e")).
Proof.
  assert (H : token_tail (L ",5e3")) by (right; eexists; reflexivity).
  split; [exact H|].
  split.
  - exact (proj1 (TryParse_reads_token_only T_unsigned_long T_double
                    (L "12") (L ",5e3") H)).
  - exact (proj2 (TryParse_reads_token_only T_unsigned_long T_double
                    (L "1e") (L ",5e3") H)).
Defined.

(** ** Leading white space *)

Lemma scan_mantissa_digits isd s :
  let '(ip, fp, n) := scan_mantissa isd s in length ip + length fp <= n.
Proof.
  unfold scan_mantissa. destruct (span isd s) as [ip s1].
  destruct s1 as [|c t]; [simpl; lia|].
  destruct (Ascii.eqb c "."); [|simpl; lia].
  destruct (span isd t) as [fp r]. lia.
Qed.

Lemma scan_dec_pos neg s v n : scan_dec neg s = Some (v, n) -> 0 < n.
Proof.
  unfold scan_dec. pose proof (scan_mantissa_digits isdigit s) as H.
  destruct (scan_mantissa isdigit s) as [[ip fp] m].
  destruct (ip ++ fp) as [|d l] eqn:E; [discriminate|].
  apply (f_equal (@length ascii)) in E. rewrite length_app in E. simpl in E.
  destruct (scan_exponent "e" (skipn m s)) as [ex k].
  intros [= _ <-]. lia.
Qed.

Lemma scan_hex_pos neg s v n : scan_hex neg s = Some (v, n) -> 0 < n.
Proof.
  unfold scan_hex. destruct (prefix_ci (L "0x") s); [|discriminate].
  destruct (scan_mantissa isxdigit (skipn 2 s)) as [[ip fp] m].
  destruct (ip ++ fp); [discriminate|].
  destruct (scan_exponent "p" (skipn (2 + m) s)) as [ex k].
  intros [= _ <-]. lia.
Qed.

Lemma scan_special_pos neg s v n : scan_special neg s = Some (v, n) -> 0 < n.
Proof.
  unfold scan_special.
  destruct (prefix_ci (L "infinity") s); [intros [= _ <-]; lia|].
  destruct (prefix_ci (L "inf") s); [intros [= _ <-]; lia|].
  destruct (prefix_ci (L "nan") s); [|discriminate].
  destruct (skipn 3 s) as [|c t]; [intros [= _ <-]; lia|].
  destruct (Ascii.eqb c "("); [|intros [= _ <-]; lia].
  destruct (span isnchar t) as [ns r].
  destruct r as [|c' r]; [intros [= _ <-]; lia|].
  destruct (Ascii.eqb c' ")"); intros [= _ <-]; lia.
Qed.

Lemma scan_fp_space ws s :
  forallb isspace ws = true ->
  scan_fp (ws ++ s) =
  (fst (scan_fp s),
   match snd (scan_fp s) with 0 => 0 | S _ => length ws + snd (scan_fp s) end).
Proof.
  intros H. unfold scan_fp. rewrite span_prefix by assumption.
  destruct (span isspace s) as [a s1]. cbn [fst snd].
  destruct (take_sign s1) as [[neg s2] k].
  assert (Hpos : forall v n,
            match scan_hex neg s2 with
            | Some r => Some r
            | None => match scan_dec neg s2 with
                      | Some r => Some r
                      | None => scan_special neg s2
                      end
            end = Some (v, n) -> 0 < n).
  { intros v n. destruct (scan_hex neg s2) as [[v1 n1]|] eqn:E1.
    - intros [= <- <-]. eapply scan_hex_pos; eassumption.
    - destruct (scan_dec neg s2) as [[v2 n2]|] eqn:E2.
      + intros [= <- <-]. eapply scan_dec_pos; eassumption.
      + apply scan_special_pos. }
  destruct (match scan_hex neg s2 with
            | Some r => Some r
            | None => match scan_dec neg s2 with
                      | Some r => Some r
                      | None => scan_special neg s2
                      end
            end) as [[v n]|]; [|reflexivity].
  specialize (Hpos v n eq_refl). cbn [fst snd].
  destruct (length a + k + n) eqn:E; [lia|].
  rewrite length_app, <- E. f_equal. lia.
Qed.

(** X13: white space in front of a number does not count: with or
    without it every integer and decimal kind parses the token to the
    same field. *)
Theorem TryParse_skips_leading_space (Ti : int_kind) (Tf : fp_kind)
    (ws tok tail : chars) :
  forallb isspace ws = true ->
  TryParse_int Ti (sv_token (ws ++ tok) tail)
    = TryParse_int Ti (sv_token tok tail) /\
  TryParse_fp Tf (sv_token (ws ++ tok) tail)
    = TryParse_fp Tf (sv_token tok tail).
Proof.
  intros H. unfold TryParse_int, TryParse_fp, sv_token. simpl sv_data.
  rewrite <- !app_assoc, convert_int_space, !convert_fp_scan, scan_fp_space
    by assumption.
  split.
  - destruct (convert_int Ti (tok ++ tail)) as [r [|e]]; cbn [fst snd];
      rewrite ?Nat.add_succ_r; reflexivity.
  - destruct (scan_fp (tok ++ tail)) as [r [|e]]; cbn [fst snd];
      rewrite ?Nat.add_succ_r; reflexivity.
Qed.

Lemma TryParse_skips_leading_space_witness :
  forallb isspace [" "%char; "009"%char] = true /\
  TryParse_int T_unsigned_long
    (sv_token ([" "%char; "009"%char] ++ L "42") (L ",x"))
    = TryParse_int T_unsigned_long (sv_token (L "42") (L ",x")) /\
  TryParse_fp T_double
    (sv_token ([" "%char; "009"%char] ++ L "42") (L ",x"))
    = TryParse_fp T_double (sv_token (L "42") (L ",x")).
Proof.
  split; [reflexivity|].
  exact (TryParse_skips_leading_space T_unsigned_long T_double
           [" "%char; "009"%char] (L "42") (L ",x") eq_refl).
Defined.

(** * Further properties of the records *)

Lemma sv_str_token tok tail : sv_str (sv_token tok tail) = tok.
Proof.
  unfold sv_str, sv_token. simpl.
  rewrite firstn_app, Nat.sub_diag, firstn_all. simpl. apply app_nil_r.
Qed.

Lemma same_token_own v :
  (exists tok tail, v = sv_token tok tail /\ token_tail tail) ->
  same_token v (own_string v).
Proof.
  intros (tok & tail & -> & Ht). unfold same_token, own_string.
  rewrite sv_str_token, sv_str_of_string.
  unfold TryParse_size_t, TryParse_double.
  rewrite TryParse_int_token, TryParse_fp_token by assumption. auto.
Qed.

Lemma same_token_nth vs i :
  Forall (fun v => exists tok tail, v = sv_token tok tail /\ token_tail tail)
    vs ->
  same_token (nth i vs (mk_sv [] 0)) (nth i (map own_string vs) (mk_sv [] 0)).
Proof.
  intros H.
  change (mk_sv [] 0) with (own_string (mk_sv [] 0)) at 2.
  rewrite map_nth.
  destruct (nth_in_or_default i vs (mk_sv [] 0)) as [Hin| ->].
  - apply same_token_own. rewrite Forall_forall in H. apply H. exact Hin.
  - repeat split.
Qed.

(** Rewrite every column of a constructor along [same_token]. *)
Ltac rewrite_columns H vs :=
  cbv beta zeta;
  repeat match goal with
  | |- context [TryParse_size_t (nth ?i vs ?d)] =>
      rewrite (proj1 (proj2 (H i)))
  | |- context [TryParse_double (nth ?i vs ?d)] =>
      rewrite (proj2 (proj2 (H i)))
  | |- context [sv_str (nth ?i vs ?d)] =>
      rewrite (proj1 (H i))
  end.

Lemma V1_make_ext vs vs' :
  (forall i, same_token (nth i vs (mk_sv [] 0)) (nth i vs' (mk_sv [] 0))) ->
  V1.make vs = V1.make vs'.
Proof. intros H. unfold V1.make. rewrite_columns H vs. reflexivity. Qed.

Lemma V2_make_ext vs vs' :
  (forall i, same_token (nth i vs (mk_sv [] 0)) (nth i vs' (mk_sv [] 0))) ->
  V2.make vs = V2.make vs'.
Proof. intros H. unfold V2.make. rewrite_columns H vs. reflexivity. Qed.

Lemma V3_make_ext vs vs' :
  (forall i, same_token (nth i vs (mk_sv [] 0)) (nth i vs' (mk_sv [] 0))) ->
  V3.make vs = V3.make vs'.
Proof. intros H. unfold V3.make. rewrite_columns H vs. reflexivity. Qed.

Lemma Forall_firstn {A : Type} (P : A -> Prop) (n : nat) (l : list A) :
  Forall P l -> Forall P (firstn n l).
Proof.
  intros H. rewrite <- (firstn_skipn n l) in H.
  apply Forall_app in H. apply H.
Qed.

Lemma own_tokens_fields line n cap :
  map own_string (firstn n (Split (sv_of_string line) comma cap)) =
  map sv_of_string (firstn n (fields comma line)).
Proof.
  rewrite <- (sv_str_of_string line) at 2.
  rewrite <- (Split_fields (sv_of_string line) comma cap).
  rewrite firstn_map, map_map. reflexivity.
Qed.

Lemma record_of_own_fields (line : chars) :
  record_of (T:=V1.t) line
    = V1.make (map sv_of_string (firstn 23 (fields comma line))) /\
  record_of (T:=V2.t) line
    = V2.make (map sv_of_string (firstn 33 (fields comma line))) /\
  record_of (T:=V3.t) line
    = V3.make (map sv_of_string (firstn 34 (fields comma line))).
Proof.
  split; [|split]; unfold record_of.
  - change (V1.make (firstn 23 (Split (sv_of_string line) comma 23)) =
            V1.make (map sv_of_string (firstn 23 (fields comma line)))).
    rewrite <- (own_tokens_fields line 23 23). apply V1_make_ext.
    intros i. apply same_token_nth, Forall_firstn, Split_line_tokens.
  - change (V2.make (firstn 33 (Split (sv_of_string line) comma 33)) =
            V2.make (map sv_of_string (firstn 33 (fields comma line)))).
    rewrite <- (own_tokens_fields line 33 33). apply V2_make_ext.
    intros i. apply same_token_nth, Forall_firstn, Split_line_tokens.
  - change (V3.make (firstn 34 (Split (sv_of_string line) comma 34)) =
            V3.make (map sv_of_string (firstn 34 (fields comma line)))).
    rewrite <- (own_tokens_fields line 34 34). apply V3_make_ext.
    intros i. apply same_token_nth, Forall_firstn, Split_line_tokens.
Qed.

(** X14: the record of a line is a function of the line's fields: the
    constructors give the same record on the views into the line and on
    free-standing copies of the first [s_ElementCount] fields. *)
Theorem record_of_fields (line : chars) :
  record_of (T:=V1.t) line
    = V1.make (map sv_of_string (firstn 23 (fields comma line))) /\
  record_of (T:=V2.t) line
    = V2.make (map sv_of_string (firstn 33 (fields comma line))) /\
  record_of (T:=V3.t) line
    = V3.make (map sv_of_string (firstn 34 (fields comma line))).
Proof. apply record_of_own_fields. Qed.

Lemma nth_firstn_lt {A : Type} (i n : nat) (l : list A) (d : A) :
  i < n -> nth i (firstn n l) d = nth i l d.
Proof.
  revert i l; induction n as [|n IH]; intros i l H; [lia|].
  destruct l as [|x l]; [reflexivity|].
  destruct i as [|i]; [reflexivity|]. simpl. apply IH. lia.
Qed.

Lemma V1_make_firstn vs n : 23 <= n -> V1.make (firstn n vs) = V1.make vs.
Proof.
  intros H. unfold V1.make. cbv beta zeta.
  rewrite !nth_firstn_lt by lia. reflexivity.
Qed.

Lemma record_of_V1_V2 line :
  record_of (T:=V1.t) line = V2_to_V1 (record_of (T:=V2.t) line).
Proof.
  change (V1.make (firstn 23 (Split (sv_of_string line) comma 0)) =
          V1.make (firstn 33 (Split (sv_of_string line) comma 0))).
  rewrite !V1_make_firstn by lia. reflexivity.
Qed.

Lemma short_line_V1_V2 lines :
  existsb (short_line (T:=V2.t)) lines = false ->
  existsb (short_line (T:=V1.t)) lines = false.
Proof.
  induction lines as [|line lines IH]; [reflexivity|].
  simpl. intros H. apply orb_false_elim in H. destruct H as [Hl Hr].
  rewrite IH by assumption. unfold short_line in *.
  apply Nat.ltb_ge in Hl. rewrite orb_false_r. apply Nat.ltb_ge.
  change (s_ElementCount (T:=V2.t)) with 33 in Hl.
  change (s_ElementCount (T:=V1.t)) with 23. lia.
Qed.

Lemma Load_model_V1_V2 fs paths rs :
  Load_model (T:=V2.t) fs paths = Return rs ->
  Load_model (T:=V1.t) fs paths = Return (map V2_to_V1 rs).
Proof.
  revert rs; induction paths as [|p rest IH]; intros rs.
  - intros [= <-]. reflexivity.
  - cbn [Load_model].
    destruct (exists_ fs p) as [[|]|e]; cbn [bind]; try discriminate.
    destruct (existsb (short_line (T:=V2.t)) (file_lines fs p)) eqn:E;
      [discriminate|].
    rewrite short_line_V1_V2 by assumption.
    destruct (Load_model (T:=V2.t) fs rest) as [rs'|]; [|discriminate].
    cbn [bind]. intros [= <-]. rewrite (IH rs' eq_refl). cbn [bind].
    rewrite map_app. unfold records. rewrite map_map.
    do 2 f_equal. apply map_ext. intros line. apply record_of_V1_V2.
Qed.

(** X15: the version 1 loader reads version 2 files.  Whenever [Load]
    returns for version 2, it returns for version 1 too, and each
    record is the version 2 record cut down to the 23 columns the two
    versions share. *)
Theorem Load_V1_of_V2 (fs : filesystem) (paths : list path)
    (rs : list V2.t) :
  Load (T:=V2.t) fs paths = Return rs ->
  Load (T:=V1.t) fs paths = Return (map V2_to_V1 rs).
Proof. rewrite !Load_is_model. apply Load_model_V1_V2. Qed.

Lemma nth_without {A : Type} (n : nat) (l : list A) (i : nat) (d : A) :
  nth i (firstn n l ++ skipn (S n) l) d =
  if i <? n then nth i l d else nth (S i) l d.
Proof.
  revert l i; induction n as [|n IH]; intros l i.
  - destruct l as [|x l]; [destruct i; reflexivity|reflexivity].
  - destruct l as [|x l];
      [destruct i; simpl; try destruct (S i <? S n); reflexivity|].
    destruct i as [|i]; [reflexivity|].
    change (nth i (firstn n l ++ skipn (S n) l) d =
            if i <? n then nth i l d else nth (S i) l d).
    apply IH.
Qed.

(** X16: version 3 is version 2 with the [ci] column put in at
    position 22: taking that token out of the array and building a
    version 2 record gives the version 3 record without [ci], and [ci]
    is that token read as a decimal. *)
Theorem V3_inserts_ci (_values : list string_view) :
  V3_to_V2 (V3.make _values)
    = V2.make (firstn 22 _values ++ skipn 23 _values) /\
  V3.ci (V3.make _values) = TryParse_double (nth 22 _values (mk_sv [] 0)) /\
  V2_to_V1 (V2.make _values) = V1.make _values.
Proof.
  split; [|split; reflexivity].
  unfold V2.make, V3.make, V3_to_V2. cbv beta zeta.
  rewrite !nth_without. reflexivity.
Qed.

Lemma Load_V1_of_V2_witness :
  Load (T:=V2.t) example_fs_V2 ["v2.csv"%string]
    = Return (records example_fs_V2 "v2.csv"%string) /\
  Load (T:=V1.t) example_fs_V2 ["v2.csv"%string]
    = Return (map V2_to_V1 (records example_fs_V2 "v2.csv"%string)).
Proof.
  assert (H : Load (T:=V2.t) example_fs_V2 ["v2.csv"%string]
              = Return (records example_fs_V2 "v2.csv"%string))
    by (vm_compute; reflexivity).
  split; [exact H|].
  exact (Load_V1_of_V2 example_fs_V2 ["v2.csv"%string] _ H).
Defined.

(** ** Decimal constants *)

Lemma digit_start c :
  isdigit c || Ascii.eqb c "." = true ->
  isspace c = false /\ Ascii.eqb c "-" = false /\ Ascii.eqb c "+" = false /\
  Ascii.eqb (tolower c) "x" = false.
Proof.
  destruct c as [[] [] [] [] [] [] [] []]; intros H;
    solve [repeat split; reflexivity | discriminate H].
Qed.

(** The subject sequence after a sign in front of a body that begins
    with a digit or a point. *)
Lemma scan_fp_signed sg c body :
  is_sign_prefix sg -> isdigit c || Ascii.eqb c "." = true ->
  scan_fp (sg ++ c :: body) =
  let neg := if list_eq_dec ascii_dec sg (L "-") then true else false in
  match
    match scan_hex neg (c :: body) with
    | Some r => Some r
    | None => match scan_dec neg (c :: body) with
              | Some r => Some r
              | None => scan_special neg (c :: body)
              end
    end
  with
  | Some (v, n) => (v, length sg + n)
  | None => (Lit_dec false 0 0, 0)
  end.
Proof.
  intros Hsg Hc. apply digit_start in Hc. destruct Hc as (Hsp & Hm & Hp & _).
  assert (Hspan : span isspace (sg ++ c :: body) = ([], sg ++ c :: body)).
  { destruct Hsg as [->|[->| ->]]; [|reflexivity|reflexivity].
    cbn [app span]. rewrite Hsp. reflexivity. }
  assert (Hts : take_sign (sg ++ c :: body) =
                (if list_eq_dec ascii_dec sg (L "-") then true else false,
                 c :: body, length sg)).
  { destruct Hsg as [->|[->| ->]]; [|reflexivity|reflexivity].
    unfold take_sign. cbn [app]. rewrite Hm, Hp. reflexivity. }
  unfold scan_fp. rewrite Hspan, Hts. reflexivity.
Qed.

Lemma scan_hex_decimal neg s :
  forallb decimal_char s = true -> scan_hex neg s = None.
Proof.
  intros H. unfold scan_hex.
  assert (E : prefix_ci (L "0x") s = false).
  { destruct s as [|c [|c' s]]; cbn [list_ascii_of_string prefix_ci];
      [reflexivity|apply andb_false_r|].
    cbn [forallb] in H. apply andb_prop in H. destruct H as [_ H].
    apply andb_prop in H. destruct H as [Hc' _].
    apply digit_start in Hc'. destruct Hc' as (_ & _ & _ & Hx).
    rewrite Hx. apply andb_false_r. }
  rewrite E. reflexivity.
Qed.

Lemma forallb_digit_decimal ds :
  forallb isdigit ds = true -> forallb decimal_char ds = true.
Proof.
  induction ds as [|d ds IH]; [reflexivity|]. cbn [forallb]. intros H.
  apply andb_prop in H. destruct H as [Hd Hds]. unfold decimal_char at 1.
  rewrite Hd, IH by assumption. reflexivity.
Qed.

Lemma scan_dec_point neg ip fp :
  forallb isdigit ip = true -> forallb isdigit fp = true ->
  ip ++ fp <> [] ->
  scan_dec neg (ip ++ "."%char :: fp) =
  Some (Lit_dec neg (digits_val 10 (ip ++ fp)) (- Z.of_nat (length fp)),
        length ip + 1 + length fp).
Proof.
  intros Hip Hfp Hne. unfold scan_dec, scan_mantissa.
  rewrite span_app_stop by (right; eexists; eexists; split; reflexivity).
  rewrite span_all by assumption. cbn [fst snd app]. cbv iota.
  rewrite Ascii.eqb_refl, span_all by assumption.
  destruct (ip ++ fp) as [|d l] eqn:E; [contradiction|]. rewrite <- E.
  replace (skipn (length ip + 1 + length fp) (ip ++ "."%char :: fp))
    with (@nil ascii).
  - cbn [scan_exponent]. rewrite Nat.add_0_r. reflexivity.
  - symmetry. apply skipn_all2. rewrite length_app. simpl. lia.
Qed.

Lemma scan_dec_integer neg ip :
  forallb isdigit ip = true -> ip <> [] ->
  scan_dec neg ip = Some (Lit_dec neg (digits_val 10 ip) 0, length ip).
Proof.
  intros Hip Hne. unfold scan_dec, scan_mantissa.
  rewrite span_all by assumption. rewrite app_nil_r.
  destruct ip as [|d l] eqn:E; [contradiction|]. rewrite <- E.
  rewrite skipn_all. cbn [scan_exponent]. rewrite Nat.add_0_r. reflexivity.
Qed.

(** X17: a plain decimal constant is read in full and rounded: an
    optional sign, digits, a point and digits give the field the value
    of the kind's format nearest to the digits read as one integer and
    scaled down by ten for each digit after the point; without the
    point, nearest to the integer itself. *)
Theorem TryParse_fp_decimal (T : fp_kind) (sg ip fp tail : chars) :
  is_sign_prefix sg ->
  forallb isdigit ip = true -> forallb isdigit fp = true ->
  token_tail tail ->
  let neg := if list_eq_dec ascii_dec sg (L "-") then true else false in
  (ip ++ fp <> [] ->
   TryParse_fp T (sv_token (sg ++ ip ++ "."%char :: fp) tail) =
     Some (round_literal (format_of T)
             (Lit_dec neg (digits_val 10 (ip ++ fp))
                (- Z.of_nat (length fp))))) /\
  (ip <> [] ->
   TryParse_fp T (sv_token (sg ++ ip) tail) =
     Some (round_literal (format_of T) (Lit_dec neg (digits_val 10 ip) 0))).
Proof.
  intros Hsg Hip Hfp Ht neg. split; intros Hne;
    rewrite TryParse_fp_token by assumption;
    unfold TryParse_fp, sv_of_string; simpl sv_data;
    rewrite convert_fp_scan.
  - assert (Hbody : exists c body, ip ++ "."%char :: fp = c :: body /\
                      isdigit c || Ascii.eqb c "." = true).
    { destruct ip as [|d ip]; [exists "."%char, fp; split; reflexivity|].
      exists d, (ip ++ "."%char :: fp). split; [reflexivity|].
      cbn [forallb] in Hip. apply andb_prop in Hip. destruct Hip as [Hd _].
      rewrite Hd. reflexivity. }
    destruct Hbody as (c & body & Eb & Hc). rewrite Eb.
    rewrite scan_fp_signed by assumption. rewrite <- Eb. cbv zeta.
    rewrite scan_hex_decimal.
    + rewrite scan_dec_point by assumption. fold neg. cbn [fst snd].
      match goal with
      | |- TryParse_return _ (Some ?n) = _ =>
          destruct n eqn:E; [lia|reflexivity]
      end.
    + rewrite forallb_app. rewrite forallb_digit_decimal by assumption.
      cbn [forallb]. rewrite forallb_digit_decimal by assumption.
      reflexivity.
  - destruct ip as [|d ip']; [contradiction|].
    assert (Hd : isdigit d || Ascii.eqb d "." = true).
    { cbn [forallb] in Hip. apply andb_prop in Hip.
      destruct Hip as [Hd _]. rewrite Hd. reflexivity. }
    rewrite scan_fp_signed by assumption. cbv zeta.
    rewrite scan_hex_decimal by (apply forallb_digit_decimal; assumption).
    rewrite scan_dec_integer by (assumption || discriminate). fold neg.
    cbn [fst snd].
    match goal with
    | |- TryParse_return _ (Some ?n) = _ =>
        destruct n eqn:E; [simpl in E; lia|reflexivity]
    end.
Qed.

Lemma TryParse_fp_decimal_witness :
  is_sign_prefix (L "-") /\ forallb isdigit (L "0") = true /\
  forallb isdigit (L "1") = true /\ token_tail (L ",x") /\
  L "0" ++ L "1" <> [] /\
  TryParse_fp T_double (sv_token (L "-" ++ L "0" ++ "."%char :: L "1") (L ",x"))
    = Some (S754_finite true 7205759403792794 (-56)) /\
  TryParse_fp T_float (sv_token (L "-" ++ L "0" ++ "."%char :: L "1") (L ",x"))
    = Some (S754_finite true 13421773 (-27)).
Proof.
  assert (H1 : is_sign_prefix (L "-")) by (right; right; reflexivity).
  assert (H2 : token_tail (L ",x")) by (right; eexists; reflexivity).
  assert (H3 : L "0" ++ L "1" <> []) by discriminate.
  split; [exact H1|]. split; [reflexivity|]. split; [reflexivity|].
  split; [exact H2|]. split; [exact H3|].
  split.
  - exact (proj1 (TryParse_fp_decimal T_double (L "-") (L "0") (L "1")
                    (L ",x") H1 eq_refl eq_refl H2) H3).
  - exact (proj1 (TryParse_fp_decimal T_float (L "-") (L "0") (L "1")
                    (L ",x") H1 eq_refl eq_refl H2) H3).
Defined.

(** * Further properties of the tokenizer and of lines *)

Lemma Split_loop_last_tail v d start result :
  start <= sv_size v ->
  sv_tail (last (Split_loop v d start result) v) = sv_tail v.
Proof.
  funelim (Split_loop v d start result); intros Hs.
  - apply H. pose proof (sv_find_bounds _ _ _ _ E) as [_ Hlt].
    unfold sv_str in Hlt. rewrite length_firstn in Hlt. lia.
  - rewrite last_last. apply sv_tail_substr_from. assumption.
Qed.

(** X18: where the tokens of [Split] lie.  For a view inside its buffer
    every token is a view inside the same buffer, and what follows it
    in memory is the delimiter that closed it or, for the last token,
    what follows the whole view. *)
Theorem Split_tokens_in_buffer (v : string_view) (d : ascii) (cap : nat) :
  within v ->
  Forall (fun t => within t /\
                   (starts_with d (sv_tail t) \/ sv_tail t = sv_tail v))
    (Split v d cap) /\
  sv_tail (last (Split v d cap) v) = sv_tail v.
Proof.
  intros Hv. split.
  - pose proof (Split_token_of v d cap) as Ht.
    assert (Hw : Forall within (Split v d cap))
      by (apply Split_loop_within; [assumption|constructor]).
    rewrite Forall_forall in *. intros t Hin.
    split; [apply Hw|apply Ht]; exact Hin.
  - apply Split_loop_last_tail. lia.
Qed.

Lemma Split_tokens_in_buffer_witness :
  within (sv_token (L "a,b") (L ";rest")) /\
  map sv_tail (Split (sv_token (L "a,b") (L ";rest")) comma 0)
    = [L ",b;rest"; L ";rest"] /\
  sv_tail (last (Split (sv_token (L "a,b") (L ";rest")) comma 0)
             (sv_token (L "a,b") (L ";rest")))
    = sv_tail (sv_token (L "a,b") (L ";rest")).
Proof.
  assert (H : within (sv_token (L "a,b") (L ";rest")))
    by (vm_compute; lia).
  split; [exact H|]. split; [reflexivity|].
  exact (proj2 (Split_tokens_in_buffer (sv_token (L "a,b") (L ";rest"))
                  comma 0 H)).
Defined.

Lemma fields_snoc d a c :
  c <> d ->
  fields d (a ++ [c]) =
  removelast (fields d a) ++ [last (fields d a) [] ++ [c]].
Proof.
  intros Hc. induction a as [|x a IH].
  - simpl. destruct (Ascii.eqb_spec c d); [contradiction|reflexivity].
  - pose proof (fields_not_nil d a) as Hne.
    cbn [app fields]. rewrite IH.
    destruct (fields d a) as [|g gs] eqn:E; [contradiction|].
    destruct (Ascii.eqb x d).
    + rewrite (removelast_cons_nonempty _ [] (g :: gs)),
        (last_cons_nonempty _ [] (g :: gs)) by discriminate.
      reflexivity.
    + destruct gs as [|g' gs]; [reflexivity|].
      cbn [removelast last app].
      reflexivity.
Qed.

Lemma text_lines_final_newline body c :
  c <> newline ->
  text_lines ((body ++ [c]) ++ [newline]) = text_lines (body ++ [c]).
Proof.
  intros Hc. unfold text_lines.
  rewrite fields_app. simpl (fields newline []).
  rewrite last_last, removelast_last.
  rewrite fields_snoc by assumption. rewrite last_last.
  destruct (last (fields newline body) [] ++ [c]) eqn:E; [|reflexivity].
  apply app_eq_nil in E. destruct E as [_ E]. discriminate E.
Qed.

(** X19: the newline that ends the last line may be left out: a text
    whose last character is not a newline loads like the same text with
    a newline added. *)
Theorem Load_final_newline_optional {T : Type} {version : Version T}
    (fs fs' : filesystem) (p p' : path) (body : chars) (c : ascii) :
  c <> newline ->
  fs p = File (body ++ [c]) ->
  fs' p' = File ((body ++ [c]) ++ [newline]) ->
  Load (T:=T) fs [p] = Load fs' [p'].
Proof.
  intros Hc Hf Hf'. rewrite !Load_is_model. cbn [Load_model].
  unfold exists_, records, file_lines, data_lines. rewrite Hf, Hf'.
  rewrite text_lines_final_newline by assumption. reflexivity.
Qed.

Lemma Load_final_newline_optional_witness :
  "m"%char <> newline /\
  (fun _ : path => File ((header_V1 ++ newline :: removelast row_sun) ++ ["m"%char]))
    "x"%string
    = File ((header_V1 ++ newline :: removelast row_sun) ++ ["m"%char]) /\
  (fun _ : path => File (((header_V1 ++ newline :: removelast row_sun)
                          ++ ["m"%char]) ++ [newline])) "y"%string
    = File (((header_V1 ++ newline :: removelast row_sun) ++ ["m"%char])
            ++ [newline]) /\
  Load (T:=V1.t)
    (fun _ : path => File ((header_V1 ++ newline :: removelast row_sun)
                           ++ ["m"%char])) ["x"%string]
  = Load (fun _ : path => File (((header_V1 ++ newline :: removelast row_sun)
                                 ++ ["m"%char]) ++ [newline])) ["y"%string].
Proof.
  assert (H : "m"%char <> newline) by discriminate.
  split; [exact H|]. split; [reflexivity|]. split; [reflexivity|].
  exact (Load_final_newline_optional (T:=V1.t) _ _ "x"%string "y"%string
           (header_V1 ++ newline :: removelast row_sun) "m"%char
           H eq_refl eq_refl).
Defined.

Lemma nth_last_fields d line c n :
  c <> d -> length (fields d line) = S n ->
  nth n (fields d (line ++ [c])) [] = nth n (fields d line) [] ++ [c] /\
  firstn (S n) (fields d (line ++ [c])) = fields d (line ++ [c]).
Proof.
  intros Hc Hl. rewrite fields_snoc by assumption.
  pose proof (fields_not_nil d line) as Hne.
  destruct (exists_last Hne) as (fs & f & E). rewrite E in *.
  rewrite length_app in Hl. simpl in Hl.
  rewrite removelast_last, last_last.
  assert (Hn : n = length fs) by lia. subst n. split.
  - rewrite !nth_middle. reflexivity.
  - apply firstn_all2. rewrite length_app. simpl. lia.
Qed.

(** X20: lines are cut at the newline only, so the carriage return of a
    line written with CR LF stays in the last token: on a line of
    exactly the expected number of tokens, the last column, a text
    column in each version, holds it at its end. *)
Theorem last_column_keeps_carriage_return (line : chars) :
  let cr_line := line ++ [carriage_return] in
  let last_field := fun n => nth n (fields comma line) [] ++ [carriage_return] in
  (token_count line = 23 ->
   V1.mag_src (record_of cr_line) = Some (last_field 22)) /\
  (token_count line = 33 ->
   V2.spect_src (record_of cr_line) = Some (last_field 32)) /\
  (token_count line = 34 ->
   V3.spect_src (record_of cr_line) = Some (last_field 33)).
Proof.
  intros cr_line last_field.
  pose proof (record_of_own_fields cr_line) as (H1 & H2 & H3).
  assert (Hcr : carriage_return <> comma) by discriminate.
  unfold token_count. rewrite length_Split, sv_str_of_string.
  assert (Hcol : forall n, length (fields comma line) = S n ->
            Some (sv_str (nth n (map sv_of_string
                                   (firstn (S n) (fields comma cr_line)))
                            (mk_sv [] 0)))
            = Some (last_field n)).
  { intros n Hn.
    destruct (nth_last_fields comma line carriage_return n Hcr Hn) as [Ha Hb].
    unfold cr_line, last_field. rewrite Hb.
    change (mk_sv [] 0) with (sv_of_string []).
    rewrite map_nth, sv_str_of_string, Ha. reflexivity. }
  split; [|split]; intros Hn.
  - rewrite H1. exact (Hcol 22 Hn).
  - rewrite H2. exact (Hcol 32 Hn).
  - rewrite H3. exact (Hcol 33 Hn).
Qed.

Lemma last_column_keeps_carriage_return_witness :
  token_count row_sun = 23 /\
  V1.mag_src (record_of (row_sun ++ [carriage_return]))
    = Some (L "m" ++ [carriage_return]).
Proof.
  assert (H : token_count row_sun = 23) by reflexivity.
  split; [exact H|].
  exact (proj1 (last_column_keeps_carriage_return row_sun) H).
Defined.

(** X21: a path of the list whose status cannot be determined makes
    [Load] throw, so no record is returned; when every path in front of
    it exists and no file in front of it has a line of too few tokens,
    the exception is the one of [exists], not the path error of
    [Load]. *)
Theorem Load_inaccessible_path_aborts {T : Type} {version : Version T}
    (fs : filesystem) (pre post : list path) (p : path) :
  fs p = Inaccessible ->
  (exists e, Load (T:=T) fs (pre ++ p :: post) = Throw e) /\
  ((forall q, In q pre ->
      exists_ fs q = Return true /\ ~ has_short_line (T:=T) fs q) ->
   Load (T:=T) fs (pre ++ p :: post) = Throw filesystem_error).
Proof.
  intros Hin. unfold Load. rewrite Load_paths_app. split.
  - destruct (Load_paths fs pre []) as [rs|e]; cbn [bind]; [|eauto].
    rewrite Load_paths_inaccessible by assumption. eauto.
  - intros Hall.
    destruct (Load_paths_all_exist fs pre []) as [[rs Hr]|Hr];
      [intros q Hq; apply (Hall q Hq)| |].
    + rewrite Hr. cbn [bind]. apply Load_paths_inaccessible. assumption.
    + destruct (Load_paths_no_short fs pre []) as [[rs Hr']|Hr'].
      * intros q Hq. destruct (Hall q Hq) as [He Hs]. split; [exact Hs|].
        intros Hq'. unfold exists_ in He. rewrite Hq' in He. discriminate He.
      * rewrite Hr' in Hr. discriminate Hr.
      * rewrite Hr' in Hr. discriminate Hr.
Qed.

Lemma Load_inaccessible_path_aborts_witness :
  example_fs "sealed/a.csv"%string = Inaccessible /\
  (exists e, Load (T:=V1.t) example_fs
     (["a.csv"%string] ++ "sealed/a.csv"%string :: ["b.csv"%string])
     = Throw e) /\
  ((forall q, In q ["a.csv"%string] ->
      exists_ example_fs q = Return true /\
      ~ has_short_line (T:=V1.t) example_fs q) ->
   Load (T:=V1.t) example_fs
     (["a.csv"%string] ++ "sealed/a.csv"%string :: ["b.csv"%string])
   = Throw filesystem_error).
Proof.
  split; [reflexivity|].
  exact (Load_inaccessible_path_aborts (T:=V1.t) example_fs ["a.csv"%string]
           ["b.csv"%string] "sealed/a.csv"%string eq_refl).
Defined.
